(** * Scroll synchronisation hook and editor page

    A shallow embedding of [resources/js/hooks/use-scroll.tsx]
    ([useSyncScroll]) and of the editor page that calls it.

    Numbers.  The DOM scroll properties are JavaScript numbers.  They are
    modelled as exact rationals [Q]; the guarded division of
    [getScrollPercentage] is kept as a division operator so that the
    development can show it is never reached with a zero divisor.

    Elements.  A DOM element is referred to by identity ([ElemId]); the DOM
    is a total store from identities to the six scroll properties the hook
    reads or writes.  Two refs may resolve to the same element: the hook's
    [targetElement !== sourceElement] is a comparison of identities.

    Assignments.  [element.scrollTop = v] stores [v] in the property, as for
    a plain read/write attribute.  Every assignment performed by the hook is
    also appended to the trace [writes], which lets statements distinguish
    "not written" from "written with the value it already had". *)

From Stdlib Require Import QArith.
From stdpp Require Import gmap list functions strings.

Set Default Proof Using "Type".
Set Warnings "-clear-no-such-hyp".

(** ** Numbers *)

(** JavaScript's [a > b] on numbers. *)
Definition Qgtb (a b : Q) : bool := negb (Qle_bool a b).

(** ** The DOM *)

(** Element identities. *)
Abbreviation ElemId := nat.

Inductive Axis := Vertical | Horizontal.

Global Instance Axis_eq_dec : EqDecision Axis.
Proof. solve_decision. Defined.

Record HTMLElement := mkElement {
  scrollTop : Q;
  scrollLeft : Q;
  scrollHeight : Q;
  scrollWidth : Q;
  clientHeight : Q;
  clientWidth : Q
}.

Definition with_scrollTop (v : Q) (el : HTMLElement) : HTMLElement :=
  mkElement v (scrollLeft el) (scrollHeight el) (scrollWidth el)
            (clientHeight el) (clientWidth el).

Definition with_scrollLeft (v : Q) (el : HTMLElement) : HTMLElement :=
  mkElement (scrollTop el) v (scrollHeight el) (scrollWidth el)
            (clientHeight el) (clientWidth el).

(** The offset and the scrollable range of an element on one axis
    (content extent minus visible extent). *)
Definition offset (ax : Axis) (el : HTMLElement) : Q :=
  match ax with
  | Vertical => scrollTop el
  | Horizontal => scrollLeft el
  end.

Definition range (ax : Axis) (el : HTMLElement) : Q :=
  match ax with
  | Vertical => (scrollHeight el - clientHeight el)%Q
  | Horizontal => (scrollWidth el - clientWidth el)%Q
  end.

Definition with_offset (ax : Axis) (v : Q) (el : HTMLElement) : HTMLElement :=
  match ax with
  | Vertical => with_scrollTop v el
  | Horizontal => with_scrollLeft v el
  end.

(** ** Options of the hook *)

(** [UseSyncScrollOptions]: three optional flags. *)
Record UseSyncScrollOptions := mkOptions {
  opt_vertical : option bool;
  opt_horizontal : option bool;
  opt_proportional : option bool
}.

(** [const { vertical = true, horizontal = true, proportional = true } = options] *)
Definition vertical (o : UseSyncScrollOptions) : bool := default true (opt_vertical o).
Definition horizontal (o : UseSyncScrollOptions) : bool := default true (opt_horizontal o).
Definition proportional (o : UseSyncScrollOptions) : bool := default true (opt_proportional o).

(** The default argument [options = {}]. *)
Definition no_options : UseSyncScrollOptions := mkOptions None None None.

Definition enabled (o : UseSyncScrollOptions) (ax : Axis) : bool :=
  match ax with
  | Vertical => vertical o
  | Horizontal => horizontal o
  end.

(** ** The page state seen by the hook *)

(** Modelled from the spec: the host's event queue (sections 4.1
    step 5 and 5), which is the browser's and not code of the repository.
    It holds the scroll events not yet fired at their element and the timer
    callbacks not yet run; the only timer callback of the hook is the one
    that clears the guard. *)
Inductive Task :=
  | ScrollEvent (target : ElemId)
  | ReleaseGuard.

Global Instance Task_eq_dec : EqDecision Task.
Proof. solve_decision. Defined.

(** One assignment to [scrollTop] or [scrollLeft] made by the hook. *)
Record Write := mkWrite {
  w_target : ElemId;
  w_axis : Axis;
  w_value : Q
}.

(** [dom]: the scroll properties of every element.
    [refs]: the [current] of each ref of the array given to the hook, [None]
    for [null]; the host may change it at any time ([SetCurrent] below).
    [isSyncing]: the guard, [isSyncing.current].
    [listeners]: the elements on which the session's [scrollHandler] is
    registered for [scroll].
    [tasks]: the host's queue, oldest first.
    [writes]: the assignments made by the hook so far, oldest first. *)
Record State := mkState {
  dom : ElemId → HTMLElement;
  refs : list (option ElemId);
  isSyncing : bool;
  listeners : gset ElemId;
  tasks : list Task;
  writes : list Write
}.

Definition set_isSyncing (b : bool) (st : State) : State :=
  mkState (dom st) (refs st) b (listeners st) (tasks st) (writes st).

Definition set_tasks (q : list Task) (st : State) : State :=
  mkState (dom st) (refs st) (isSyncing st) (listeners st) q (writes st).

Definition set_listeners (ls : gset ElemId) (st : State) : State :=
  mkState (dom st) (refs st) (isSyncing st) ls (tasks st) (writes st).

Definition set_refs (rs : list (option ElemId)) (st : State) : State :=
  mkState (dom st) rs (isSyncing st) (listeners st) (tasks st) (writes st).

Definition set_dom (d : ElemId → HTMLElement) (st : State) : State :=
  mkState d (refs st) (isSyncing st) (listeners st) (tasks st) (writes st).

(** [setTimeout(() => { isSyncing.current = false }, 0)]: the callback is
    put at the end of the host's queue ("defer release to the next turn of
    the event loop", specification 4.1 step 5). *)
Definition setTimeout (t : Task) (st : State) : State :=
  set_tasks (tasks st ++ [t]) st.

(** [el.addEventListener('scroll', scrollHandler)]: registering the same
    handler twice on one element keeps one registration. *)
Definition addEventListener (el : ElemId) (st : State) : State :=
  set_listeners ({[el]} ∪ listeners st) st.

(** [el.removeEventListener('scroll', scrollHandler)]. *)
Definition removeEventListener (el : ElemId) (st : State) : State :=
  set_listeners (listeners st ∖ {[el]}) st.

(** ** The hook: use-scroll.tsx *)

Module UseSyncScroll.

Section Hook.

(** Host policy: whether assigning [v] to the offset of an element on an
    axis makes the host raise a scroll notification on that element ("offset
    writes may themselves raise scroll observations on the target handles",
    specification 4.1 step 5).  The hook's source does not fix it; every
    result below holds for any policy. *)
Variable notifies : HTMLElement → Axis → Q → bool.

Variable options : UseSyncScrollOptions.

(** [target.scrollTop = v] / [target.scrollLeft = v]: the property takes
    the value, the assignment is recorded, and the notification it raises,
    if any, joins the host's queue. *)
Definition set_scroll (target : ElemId) (ax : Axis) (v : Q) (st : State) : State :=
  let el := dom st target in
  mkState (<[target := with_offset ax v el]> (dom st)) (refs st)
          (isSyncing st) (listeners st)
          (tasks st ++ (if notifies el ax v then [ScrollEvent target] else []))
          (writes st ++ [mkWrite target ax v]).

(** [getScrollPercentage], lines 36-49, over a division operator. *)
Definition getScrollPercentage_with (div : Q → Q → Q) (element : HTMLElement) : Q * Q :=
  let verticalScrollRange := (scrollHeight element - clientHeight element)%Q in
  let horizontalScrollRange := (scrollWidth element - clientWidth element)%Q in
  let verticalPercent :=
    if Qgtb verticalScrollRange 0 then div (scrollTop element) verticalScrollRange else 0%Q in
  let horizontalPercent :=
    if Qgtb horizontalScrollRange 0 then div (scrollLeft element) horizontalScrollRange else 0%Q in
  (verticalPercent, horizontalPercent).

Definition getScrollPercentage : HTMLElement → Q * Q :=
  getScrollPercentage_with Qdiv.

(** [setScrollFromPercentage], lines 58-77. *)
Definition setScrollFromPercentage
    (target : ElemId) (verticalPercent horizontalPercent : Q) (st : State) : State :=
  let element := dom st target in
  let verticalScrollRange := (scrollHeight element - clientHeight element)%Q in
  let horizontalScrollRange := (scrollWidth element - clientWidth element)%Q in
  let st1 :=
    if vertical options && Qgtb verticalScrollRange 0
    then set_scroll target Vertical (verticalPercent * verticalScrollRange)%Q st
    else st in
  if horizontal options && Qgtb horizontalScrollRange 0
  then set_scroll target Horizontal (horizontalPercent * horizontalScrollRange)%Q st1
  else st1.

(** The body of [refs.forEach((ref) => ...)] in [scrollHandler], lines 102-116. *)
Definition syncRef (source : ElemId) (verticalPercent horizontalPercent : Q)
    (st : State) (ref : option ElemId) : State :=
  match ref with
  | Some targetElement =>
      if bool_decide (targetElement ≠ source) then
        if proportional options then
          setScrollFromPercentage targetElement verticalPercent horizontalPercent st
        else
          let st1 :=
            if vertical options
            then set_scroll targetElement Vertical (scrollTop (dom st source)) st
            else st in
          if horizontal options
          then set_scroll targetElement Horizontal (scrollLeft (dom st1 source)) st1
          else st1
      else st
  | None => st
  end.

(** [scrollHandler], lines 89-125; [source] is [e.target]. *)
Definition scrollHandler (source : ElemId) (st : State) : State :=
  if isSyncing st then st
  else
    let st1 := set_isSyncing true st in
    let sourceElement := dom st1 source in
    let '(verticalPercent, horizontalPercent) := getScrollPercentage sourceElement in
    let st2 := foldl (syncRef source verticalPercent horizontalPercent) st1 (refs st1) in
    setTimeout ReleaseGuard st2.

(** The attach loop of the effect, lines 128-133. *)
Definition attach (st : State) : State :=
  foldl (λ s ref, match ref with
                  | Some el => addEventListener el s
                  | None => s
                  end) st (refs st).

(** The cleanup returned by the effect, lines 136-143. *)
Definition cleanup (st : State) : State :=
  foldl (λ s ref, match ref with
                  | Some el => removeEventListener el s
                  | None => s
                  end) st (refs st).

(** The effect of [useSyncScroll], lines 80-144: the state after it ran
    and the cleanup it returned, if any. *)
Definition useEffect_body (st : State) : State * option (State → State) :=
  if (length (refs st) <? 2)%nat then (st, None)
  else (attach st, Some cleanup).

(** ** The host *)

(** Modelled from the spec: the host's event loop (section 5:
    single-threaded, one queue served in order).  Between two runs of the
    hook's code the host may move an element's offset for the user and queue
    the scroll event, serve the oldest task of the queue, or set the
    [current] of a ref. *)
Inductive Action :=
  | UserScroll (el : ElemId) (ax : Axis) (v : Q)
  | Tick
  | SetCurrent (i : nat) (current : option ElemId).

(** Firing a scroll event at an element calls the handler when it is
    registered there. *)
Definition dispatch (el : ElemId) (st : State) : State :=
  if bool_decide (el ∈ listeners st) then scrollHandler el st else st.

(** One action of the host.  Serving a scroll event fires it at its
    element; serving the timer callback runs [isSyncing.current = false]. *)
Definition step (st : State) (a : Action) : State :=
  match a with
  | UserScroll el ax v =>
      set_tasks (tasks st ++ [ScrollEvent el])
                (set_dom (<[el := with_offset ax v (dom st el)]> (dom st)) st)
  | Tick =>
      match tasks st with
      | [] => st
      | ScrollEvent el :: rest => dispatch el (set_tasks rest st)
      | ReleaseGuard :: rest => set_isSyncing false (set_tasks rest st)
      end
  | SetCurrent i current => set_refs (<[i := current]> (refs st)) st
  end.

Definition run (acts : list Action) (st : State) : State := foldl step st acts.

(** The writes of one call of the handler. *)
Definition pass_writes (source : ElemId) (st : State) : list Write :=
  drop (length (writes st)) (writes (scrollHandler source st)).

(** ** The pass in the words of the specification

    These definitions follow the specification, not the code; the
    theorems below compare the handler with them. *)

(** Scroll percentage: [offset / range] when [range > 0], else [0]. *)
Definition spec_percent (ax : Axis) (el : HTMLElement) : Q :=
  if Qgtb (range ax el) 0 then (offset ax el / range ax el)%Q else 0%Q.

(** The value a pass from [source], started in [st], gives to the offset
    of [target] on [ax]. *)
Definition spec_value (source : ElemId) (st : State) (ax : Axis) (target : ElemId) : Q :=
  if proportional options
  then (spec_percent ax (dom st source) * range ax (dom st target))%Q
  else offset ax (dom st source).

(** Whether a pass started in [st] assigns the offset of [target] on [ax]:
    the axis is enabled and, in proportional mode, the target can scroll
    on it. *)
Definition spec_assigns (st : State) (ax : Axis) (target : ElemId) : bool :=
  enabled options ax
  && (if proportional options then Qgtb (range ax (dom st target)) 0 else true).

Definition spec_axis_writes (source : ElemId) (st : State) (ax : Axis)
    (target : ElemId) : list Write :=
  if spec_assigns st ax target
  then [mkWrite target ax (spec_value source st ax target)]
  else [].

(** The assignments made for one ref of the array. *)
Definition spec_ref_writes (source : ElemId) (st : State)
    (ref : option ElemId) : list Write :=
  match ref with
  | Some target =>
      if bool_decide (target ≠ source)
      then spec_axis_writes source st Vertical target
           ++ spec_axis_writes source st Horizontal target
      else []
  | None => []
  end.

(** The assignments of a whole pass, in the order of the refs. *)
Definition spec_pass_writes (source : ElemId) (st : State) : list Write :=
  flat_map (spec_ref_writes source st) (refs st).

(** [target] is a live handle of the session other than the source. *)
Definition is_target (source : ElemId) (rs : list (option ElemId))
    (target : ElemId) : bool :=
  bool_decide (Some target ∈ rs) && bool_decide (target ≠ source).

(** The part of the DOM a pass from [source] started in [st0] never
    changes: the extents of every element and the offsets of the source. *)
Definition keeps (source : ElemId) (st0 st : State) : Prop :=
  (∀ e ax, range ax (dom st e) = range ax (dom st0 e))
  ∧ (∀ ax, offset ax (dom st source) = offset ax (dom st0 source)).

End Hook.

End UseSyncScroll.

Import UseSyncScroll.

(** ** Notions used to state the properties *)

(** The component of a pair of percentages for one axis. *)
Definition percent_on (ax : Axis) (p : Q * Q) : Q :=
  match ax with
  | Vertical => fst p
  | Horizontal => snd p
  end.

(** A division whose result on a zero divisor is the arbitrary [d]. *)
Definition div_or (d : Q) (a b : Q) : Q :=
  if Qeq_bool b 0 then d else (a / b)%Q.

(** The elements the refs of the array resolve to. *)
Definition live_elements (rs : list (option ElemId)) : gset ElemId :=
  list_to_set (omap id rs).

(** Number of guard releases waiting in a queue. *)
Definition pending_releases (q : list Task) : nat :=
  length (filter (λ t, t = ReleaseGuard) q).

(** The guard is set exactly while one release is waiting in the queue:
    a pass is in flight from the handler call that sets the guard to the
    timer callback that clears it. *)
Definition guard_inv (st : State) : Prop :=
  pending_releases (tasks st) = if isSyncing st then 1%nat else 0%nat.

(** ** The editor page (src/unnamed/part_001) *)

Module EditorView.

(** The two elements of the page that are given a ref: the [textarea]
    (text input) and the [div] whose inner HTML is the rendered markup. *)
Inductive Surface := Textarea | PreviewDiv.

Inductive RefName := div1Ref | div2Ref.

(** [<textarea ref={div1Ref} ...>] and [<div ref={div2Ref} ...>]. *)
Definition ref_target (r : RefName) : Surface :=
  match r with
  | div1Ref => Textarea
  | div2Ref => PreviewDiv
  end.

(** [useSyncScroll([div1Ref, div2Ref],
      { proportional: true, vertical: true, horizontal: true })]. *)
Definition sync_refs : list RefName := [div1Ref; div2Ref].

Definition sync_options : UseSyncScrollOptions :=
  mkOptions (Some true) (Some true) (Some true).

(** The two [useState] cells and the calls of [handleChange] suspended at
    their [await], each holding the renderer's output it waits for. *)
Record EditorState := mkEditor {
  value : string;
  markedHtml : string;
  awaiting : list string
}.

(** [useState('')] twice, and no call in progress. *)
Definition initial : EditorState := mkEditor EmptyString EmptyString [].

Section Renderer.

(** The external renderer [marked]. *)
Variable marked : string → string.

(** [handleChange] up to its [await]: [setValue(event.target.value)],
    then the call [marked(event.target.value)]. *)
Definition handleChange (text : string) (st : EditorState) : EditorState :=
  mkEditor text (markedHtml st) (awaiting st ++ [marked text]).

(** The rest of [handleChange] for the [k]-th suspended call:
    [setMarkedHtml(html)]. *)
Definition resume (k : nat) (st : EditorState) : EditorState :=
  match awaiting st !! k with
  | Some html => mkEditor (value st) html (delete k (awaiting st))
  | None => st
  end.

(** What each surface shows: [value={value}] on the textarea and
    [dangerouslySetInnerHTML={{ __html: markedHtml }}] on the div. *)
Definition shown (s : Surface) (st : EditorState) : string :=
  match s with
  | Textarea => value st
  | PreviewDiv => markedHtml st
  end.

(** An edit whose render completes before the next edit. *)
Definition edit (st : EditorState) (text : string) : EditorState :=
  resume (length (awaiting st)) (handleChange text st).

End Renderer.

(** The refs handed to the hook once both surfaces are mounted. *)
Definition mounted_refs (el : Surface → ElemId) : list (option ElemId) :=
  map (λ r, Some (el (ref_target r))) sync_refs.

End EditorView.

(** The four properties of an element the hook only reads. *)
Definition extents (el : HTMLElement) : Q * Q * Q * Q :=
  (scrollHeight el, scrollWidth el, clientHeight el, clientWidth el).

(** The timer callback of the handler, [isSyncing.current = false]. *)
Definition release_guard (st : State) : State := set_isSyncing false st.

(** ** Concrete pages *)

Module Examples.

(** Handle A of the specification's proportional example: [scrollTop = 50],
    [scrollHeight = 150], [clientHeight = 100]; it cannot scroll
    horizontally. *)
Definition elA : HTMLElement := mkElement 50 0 150 100 100 100.

(** Handle B: vertical range 200, horizontal range 40. *)
Definition elB : HTMLElement := mkElement 0 0 300 140 100 100.

(** An element whose content fits on both axes. *)
Definition elFlat : HTMLElement := mkElement 0 0 100 100 100 100.

(** A is element 1, B is element 2, every other element is flat. *)
Definition page_dom : ElemId → HTMLElement :=
  <[1%nat := elA]> (<[2%nat := elB]> (λ _, elFlat)).

(** A page with two refs resolving to A and B, before the effect ran. *)
Definition page : State :=
  mkState page_dom [Some 1%nat; Some 2%nat] false ∅ [] [].

(** A page with a single ref. *)
Definition single : State :=
  mkState page_dom [Some 1%nat] false ∅ [] [].

(** A host that raises a scroll notification on every assignment. *)
Definition always_notifies (_ : HTMLElement) (_ : Axis) (_ : Q) : bool := true.

Definition vertical_only (p : bool) : UseSyncScrollOptions :=
  mkOptions (Some true) (Some false) (Some p).

Definition direct : UseSyncScrollOptions :=
  mkOptions None None (Some false).

Definition no_axis (p : bool) : UseSyncScrollOptions :=
  mkOptions (Some false) (Some false) (Some p).

(** A stand-in for the renderer: wraps the text in a paragraph. *)
Definition paragraph (text : string) : string :=
  String.append "<p>" (String.append text "</p>").

End Examples.

Module LatePage.

(** A page whose second ref is still [null] when the effect runs; element 2
    is the one it resolves to later. *)
Definition page : State :=
  mkState Examples.page_dom [Some 1%nat; None] false ∅ [] [].

(** The host sets the second ref, then the user scrolls element 2 and the
    scroll event is served. *)
Definition late_scroll : list Action :=
  [SetCurrent 1 (Some 2%nat); UserScroll 2 Vertical 10; Tick].

End LatePage.

(** ** The page with the text state only (src/resources/js/pages/index.tsx) *)

Module IndexPage.

(** [handleChange], lines 4-6: [setValue(event.target.value)]; the state of
    the page is the [value] cell alone. *)
Definition handleChange (text : string) (value : string) : string := text.

End IndexPage.

(** ** Runs of the editor page *)

Module EditorRun.

(** What happens to the editor page: the user changes the text, or the
    [k]-th suspended call of [handleChange] gets its render and resumes. *)
Inductive EditorAction :=
  | Change (text : string)
  | Complete (k : nat).

Definition editor_step (marked : string → string)
    (st : EditorView.EditorState) (a : EditorAction) : EditorView.EditorState :=
  match a with
  | Change text => EditorView.handleChange marked text st
  | Complete k => EditorView.resume k st
  end.

Definition editor_run (marked : string → string) (acts : list EditorAction)
    (st : EditorView.EditorState) : EditorView.EditorState :=
  foldl (editor_step marked) st acts.

(** The texts typed in a run, in order. *)
Definition typed_texts (acts : list EditorAction) : list string :=
  omap (λ a, match a with Change text => Some text | Complete _ => None end) acts.

End EditorRun.

(** * Properties *)

(** ** Comparisons on numbers *)

Lemma Qgtb_true (a b : Q) : Qgtb a b = true ↔ (b < a)%Q.
Proof.
  unfold Qgtb. rewrite negb_true_iff, <- not_true_iff_false, Qle_bool_iff.
  split; [apply Qnot_le_lt | apply Qlt_not_le].
Qed.

Lemma Qgtb_false (a b : Q) : Qgtb a b = false ↔ (a <= b)%Q.
Proof.
  unfold Qgtb. rewrite negb_false_iff. apply Qle_bool_iff.
Qed.

(** ** Element updates *)

Lemma range_with_offset ax ax' v el :
  range ax' (with_offset ax v el) = range ax' el.
Proof. by destruct ax, ax'. Qed.

Lemma offset_with_offset ax ax' v el :
  offset ax' (with_offset ax v el) = if decide (ax = ax') then v else offset ax' el.
Proof. by destruct ax, ax'. Qed.

Section HookFacts.

Variable notifies : HTMLElement → Axis → Q → bool.
Variable options : UseSyncScrollOptions.

Local Abbreviation set_scroll := (set_scroll notifies).
Local Abbreviation setScrollFromPercentage := (setScrollFromPercentage notifies options).
Local Abbreviation syncRef := (syncRef notifies options).
Local Abbreviation scrollHandler := (scrollHandler notifies options).
Local Abbreviation pass_writes := (pass_writes notifies options).
Local Abbreviation spec_value := (spec_value options).
Local Abbreviation spec_assigns := (spec_assigns options).
Local Abbreviation spec_axis_writes := (spec_axis_writes options).
Local Abbreviation spec_ref_writes := (spec_ref_writes options).
Local Abbreviation spec_pass_writes := (spec_pass_writes options).
Local Abbreviation dispatch := (dispatch notifies options).
Local Abbreviation step := (step notifies options).
Local Abbreviation run := (run notifies options).

(** *** One assignment *)

Lemma dom_set_scroll t ax v st e :
  dom (set_scroll t ax v st) e
  = if decide (t = e) then with_offset ax v (dom st t) else dom st e.
Proof.
  simpl. case_decide as He.
  - subst. apply fn_lookup_insert.
  - by apply fn_lookup_insert_ne.
Qed.

Lemma range_set_scroll t ax v st e ax' :
  range ax' (dom (set_scroll t ax v st) e) = range ax' (dom st e).
Proof.
  rewrite dom_set_scroll. case_decide; [subst; apply range_with_offset | done].
Qed.

Lemma offset_set_scroll t ax v st e ax' :
  offset ax' (dom (set_scroll t ax v st) e)
  = if bool_decide (t = e ∧ ax = ax') then v else offset ax' (dom st e).
Proof.
  rewrite dom_set_scroll. case_decide as He.
  - subst. rewrite offset_with_offset.
    case_decide; case_bool_decide; tauto.
  - case_bool_decide; tauto.
Qed.

Lemma set_scroll_if_frame (c : bool) t ax v st :
  let st' := if c then set_scroll t ax v st else st in
  refs st' = refs st ∧ isSyncing st' = isSyncing st ∧ listeners st' = listeners st
  ∧ writes st' = writes st ++ (if c then [mkWrite t ax v] else [])
  ∧ ∃ evs, tasks st' = tasks st ++ map ScrollEvent evs.
Proof.
  destruct c; simpl.
  - split_and!; try done.
    destruct (notifies _ _ _); [by exists [t] | exists []; simpl; by rewrite app_nil_r].
  - rewrite app_nil_r. split_and!; try done. exists []. by rewrite app_nil_r.
Qed.

Lemma set_scroll_if_range (c : bool) t ax v st e ax' :
  range ax' (dom (if c then set_scroll t ax v st else st) e) = range ax' (dom st e).
Proof. destruct c; [apply range_set_scroll | done]. Qed.

Lemma set_scroll_if_offset (c : bool) t ax v st e ax' :
  offset ax' (dom (if c then set_scroll t ax v st else st) e)
  = if c && bool_decide (t = e ∧ ax = ax') then v else offset ax' (dom st e).
Proof. destruct c; [apply offset_set_scroll | done]. Qed.

(** *** One ref of the array *)

Lemma keeps_refl source st : keeps source st st.
Proof. by split. Qed.

Lemma keeps_set_scroll_if source st0 st (c : bool) t ax v :
  t ≠ source → keeps source st0 st →
  keeps source st0 (if c then set_scroll t ax v st else st).
Proof.
  intros Hne [Hr Ho]. split.
  - intros e ax'. by rewrite set_scroll_if_range.
  - intros ax'. rewrite set_scroll_if_offset.
    rewrite bool_decide_eq_false_2 by tauto.
    rewrite andb_false_r. apply Ho.
Qed.

(** For a target other than the source, the body of the loop is two guarded
    assignments whose guards and values are those of the specification,
    read in the state the pass started from. *)
Lemma syncRef_target source st0 st t :
  keeps source st0 st → t ≠ source →
  syncRef source (spec_percent Vertical (dom st0 source))
          (spec_percent Horizontal (dom st0 source)) st (Some t)
  = (let st1 := if spec_assigns st0 Vertical t
                then set_scroll t Vertical (spec_value source st0 Vertical t) st
                else st in
     if spec_assigns st0 Horizontal t
     then set_scroll t Horizontal (spec_value source st0 Horizontal t) st1
     else st1).
Proof.
  intros [Hr Ho] Hne. unfold UseSyncScroll.syncRef.
  rewrite bool_decide_eq_true_2 by done.
  unfold UseSyncScroll.spec_assigns, UseSyncScroll.spec_value, UseSyncScroll.setScrollFromPercentage.
  pose proof (Hr t Vertical) as HrV. pose proof (Hr t Horizontal) as HrH.
  pose proof (Ho Vertical) as HoV. pose proof (Ho Horizontal) as HoH.
  simpl in HrV, HrH, HoV, HoH. simpl enabled.
  destruct (proportional options).
  - simpl range. by rewrite HrV, HrH.
  - rewrite !andb_true_r. simpl offset. rewrite HoV.
    destruct (vertical options), (horizontal options); try done.
    + assert (scrollLeft (dom (set_scroll t Vertical (scrollTop (dom st0 source)) st) source)
              = scrollLeft (dom st source)) as Hs.
      { rewrite dom_set_scroll. by rewrite decide_False. }
      by rewrite Hs, HoH.
    + by rewrite HoH.
Qed.

Lemma is_target_cons source r rs e :
  is_target source (r :: rs) e = is_target source [r] e || is_target source rs e.
Proof.
  unfold is_target. rewrite <- andb_orb_distrib_l. f_equal.
  apply eq_true_iff_eq. rewrite orb_true_iff, !bool_decide_eq_true.
  rewrite elem_of_cons, list_elem_of_singleton. done.
Qed.

(** What one iteration of the loop does, in terms of the state [st0] the
    pass started from. *)
Lemma syncRef_facts source st0 st r :
  keeps source st0 st →
  let st' := syncRef source (spec_percent Vertical (dom st0 source))
                     (spec_percent Horizontal (dom st0 source)) st r in
  keeps source st0 st'
  ∧ refs st' = refs st ∧ isSyncing st' = isSyncing st ∧ listeners st' = listeners st
  ∧ writes st' = writes st ++ spec_ref_writes source st0 r
  ∧ (∃ evs, tasks st' = tasks st ++ map ScrollEvent evs)
  ∧ (∀ e ax, offset ax (dom st' e)
             = if is_target source [r] e && spec_assigns st0 ax e
               then spec_value source st0 ax e
               else offset ax (dom st e)).
Proof.
  intros Hk.
  assert (∀ s : State, ∃ evs, tasks s = tasks s ++ map ScrollEvent evs) as Hnil.
  { intros s. exists []. simpl. by rewrite app_nil_r. }
  destruct r as [t|]; [destruct (decide (t = source)) as [->|Hne]|].
  - simpl. rewrite bool_decide_eq_false_2 by tauto. rewrite app_nil_r.
    split_and!; try done. intros e ax. unfold is_target.
    destruct (decide (e = source)) as [->|He].
    + rewrite (bool_decide_eq_false_2 (source ≠ source)) by tauto.
      by rewrite andb_false_r.
    + rewrite bool_decide_eq_false_2; [done|].
      rewrite list_elem_of_singleton. congruence.
  - intros st'. subst st'. rewrite syncRef_target by done.
    set (cV := spec_assigns st0 Vertical t). set (vV := spec_value source st0 Vertical t).
    set (cH := spec_assigns st0 Horizontal t). set (vH := spec_value source st0 Horizontal t).
    set (st1 := if cV then set_scroll t Vertical vV st else st). cbv zeta.
    destruct (set_scroll_if_frame cV t Vertical vV st)
      as (Hr1 & Hs1 & Hl1 & Hw1 & evs1 & Ht1).
    destruct (set_scroll_if_frame cH t Horizontal vH st1)
      as (Hr2 & Hs2 & Hl2 & Hw2 & evs2 & Ht2).
    fold st1 in Hr1, Hs1, Hl1, Hw1, Ht1.
    split_and!.
    + apply keeps_set_scroll_if; [done|]. by apply keeps_set_scroll_if.
    + congruence.
    + congruence.
    + congruence.
    + rewrite Hw2, Hw1, <- app_assoc. f_equal. simpl.
      rewrite bool_decide_eq_true_2 by done. done.
    + exists (evs1 ++ evs2). rewrite Ht2, Ht1, map_app, app_assoc. done.
    + intros e ax. rewrite set_scroll_if_offset. unfold st1.
      rewrite set_scroll_if_offset. unfold is_target.
      destruct (decide (t = e)) as [->|He].
      * rewrite (bool_decide_eq_true_2 (Some e ∈ [Some e])) by apply list_elem_of_here.
        rewrite (bool_decide_eq_true_2 (e ≠ source)) by done. simpl.
        destruct ax; repeat case_bool_decide; try tauto; try (by intuition congruence).
        -- by rewrite andb_false_r, andb_true_r.
        -- rewrite andb_true_r, andb_false_r. fold cH. by destruct cH.
      * rewrite !(bool_decide_eq_false_2 (t = e ∧ _)) by tauto.
        rewrite !andb_false_r.
        rewrite (bool_decide_eq_false_2 (Some e ∈ [Some t])); [done|].
        rewrite list_elem_of_singleton. congruence.
  - simpl. rewrite app_nil_r. split_and!; done.
Qed.

(** *** The whole loop *)

Lemma foldl_syncRef_facts source st0 rs : ∀ st,
  keeps source st0 st →
  let st' := foldl (syncRef source (spec_percent Vertical (dom st0 source))
                            (spec_percent Horizontal (dom st0 source))) st rs in
  keeps source st0 st'
  ∧ refs st' = refs st ∧ isSyncing st' = isSyncing st ∧ listeners st' = listeners st
  ∧ writes st' = writes st ++ flat_map (spec_ref_writes source st0) rs
  ∧ (∃ evs, tasks st' = tasks st ++ map ScrollEvent evs)
  ∧ (∀ e ax, offset ax (dom st' e)
             = if is_target source rs e && spec_assigns st0 ax e
               then spec_value source st0 ax e
               else offset ax (dom st e)).
Proof.
  induction rs as [|r rs IH]; intros st Hk.
  - simpl. rewrite app_nil_r. split_and!; try done.
    exists []. simpl. by rewrite app_nil_r.
  - destruct (syncRef_facts source st0 st r Hk)
      as (Hk1 & Hr1 & Hs1 & Hl1 & Hw1 & (evs1 & Ht1) & Ho1).
    destruct (IH _ Hk1) as (Hk2 & Hr2 & Hs2 & Hl2 & Hw2 & (evs2 & Ht2) & Ho2).
    simpl foldl. split_and!.
    + done.
    + congruence.
    + congruence.
    + congruence.
    + rewrite Hw2, Hw1, <- app_assoc. simpl flat_map. done.
    + exists (evs1 ++ evs2). rewrite Ht2, Ht1, map_app, app_assoc. done.
    + intros e ax. rewrite Ho2, Ho1, (is_target_cons source r rs).
      destruct (is_target source [r] e), (is_target source rs e),
        (spec_assigns st0 ax e); done.
Qed.

(** *** The handler *)

(** A scroll event seen while the guard is set changes nothing. *)
Lemma scrollHandler_guarded source st :
  isSyncing st = true → scrollHandler source st = st.
Proof. intros H. unfold UseSyncScroll.scrollHandler. by rewrite H. Qed.

(** A scroll event seen while the guard is clear runs one pass. *)
Lemma scrollHandler_pass source st :
  isSyncing st = false →
  let st' := scrollHandler source st in
  isSyncing st' = true
  ∧ refs st' = refs st ∧ listeners st' = listeners st
  ∧ writes st' = writes st ++ spec_pass_writes source st
  ∧ (∃ evs, tasks st' = tasks st ++ map ScrollEvent evs ++ [ReleaseGuard])
  ∧ (∀ e ax, range ax (dom st' e) = range ax (dom st e))
  ∧ (∀ e ax, offset ax (dom st' e)
             = if is_target source (refs st) e && spec_assigns st ax e
               then spec_value source st ax e
               else offset ax (dom st e)).
Proof.
  intros H. unfold UseSyncScroll.scrollHandler. rewrite H.
  change (getScrollPercentage (dom (set_isSyncing true st) source))
    with (spec_percent Vertical (dom st source), spec_percent Horizontal (dom st source)).
  cbv iota beta.
  destruct (foldl_syncRef_facts source (set_isSyncing true st)
              (refs (set_isSyncing true st)) _ (keeps_refl source _))
    as ([Hk _] & Hr & Hs & Hl & Hw & (evs & Ht) & Ho).
  cbv zeta in *. split_and!; try done.
  exists evs. unfold setTimeout at 1. unfold set_tasks at 1. cbn [tasks].
  refine (eq_trans (f_equal (λ l, l ++ [ReleaseGuard]) Ht) _).
  cbn [tasks set_isSyncing]. by rewrite <- app_assoc.
Qed.

Lemma pass_writes_spec source st :
  isSyncing st = false → pass_writes source st = spec_pass_writes source st.
Proof.
  intros H. unfold UseSyncScroll.pass_writes.
  destruct (scrollHandler_pass source st H) as (_ & _ & _ & -> & _).
  by rewrite drop_app_length.
Qed.

Lemma pass_writes_guarded source st :
  isSyncing st = true → pass_writes source st = [].
Proof.
  intros H. unfold UseSyncScroll.pass_writes. rewrite scrollHandler_guarded by done.
  apply drop_all.
Qed.

(** The assignments of a pass, one by one. *)
Lemma elem_of_spec_pass_writes w source st :
  w ∈ spec_pass_writes source st
  ↔ ∃ t ax, w = mkWrite t ax (spec_value source st ax t)
            ∧ Some t ∈ refs st ∧ t ≠ source ∧ spec_assigns st ax t = true.
Proof.
  unfold UseSyncScroll.spec_pass_writes.
  rewrite list_elem_of_In, in_flat_map. split.
  - intros ([t|] & Hin & Hw); [|by destruct Hw].
    apply list_elem_of_In in Hin. apply list_elem_of_In in Hw. simpl in Hw.
    case_bool_decide as Hne; [|by apply elem_of_nil in Hw].
    unfold UseSyncScroll.spec_axis_writes in Hw. apply elem_of_app in Hw as [Hw|Hw].
    + destruct (spec_assigns st Vertical t) eqn:Hc; [|by apply elem_of_nil in Hw].
      apply list_elem_of_singleton in Hw. by exists t, Vertical.
    + destruct (spec_assigns st Horizontal t) eqn:Hc; [|by apply elem_of_nil in Hw].
      apply list_elem_of_singleton in Hw. by exists t, Horizontal.
  - intros (t & ax & -> & Hin & Hne & Hc). exists (Some t).
    split; [by apply list_elem_of_In|]. apply list_elem_of_In. simpl.
    rewrite bool_decide_eq_true_2 by done.
    unfold UseSyncScroll.spec_axis_writes. apply elem_of_app.
    destruct ax; [left|right]; rewrite Hc; apply list_elem_of_here.
Qed.

Lemma is_target_true source rs t :
  is_target source rs t = true ↔ Some t ∈ rs ∧ t ≠ source.
Proof.
  unfold is_target. by rewrite andb_true_iff, !bool_decide_eq_true.
Qed.

(** ** Proportional mode *)

(** C1. In proportional mode, a pass from [source] sets the offset of every
    other live handle, on every enabled axis on which that handle has a
    positive range, to [percent * targetRange], where [percent] is the
    source's [offset / range] when its range is positive and [0] otherwise:
    the value is assigned, and it is the offset the handle has after the
    pass. *)
Theorem proportional_pass_sets_offset source st target ax :
  proportional options = true →
  isSyncing st = false →
  Some target ∈ refs st → target ≠ source →
  enabled options ax = true →
  (0 < range ax (dom st target))%Q →
  let percent :=
    if Qgtb (range ax (dom st source)) 0
    then (offset ax (dom st source) / range ax (dom st source))%Q
    else 0%Q in
  offset ax (dom (scrollHandler source st) target)
  = (percent * range ax (dom st target))%Q
  ∧ mkWrite target ax (percent * range ax (dom st target))%Q ∈ pass_writes source st.
Proof.
  intros Hp Hs Hin Hne Hen Hpos percent.
  assert (spec_assigns st ax target = true) as Hc.
  { unfold UseSyncScroll.spec_assigns. rewrite Hen, Hp. by apply Qgtb_true. }
  assert (spec_value source st ax target = (percent * range ax (dom st target))%Q) as Hv.
  { unfold UseSyncScroll.spec_value. by rewrite Hp. }
  destruct (scrollHandler_pass source st Hs) as (_ & _ & _ & _ & _ & _ & Ho).
  split.
  - rewrite Ho, Hc, andb_true_r.
    by rewrite (proj2 (is_target_true source (refs st) target)).
  - rewrite pass_writes_spec by done. apply elem_of_spec_pass_writes.
    exists target, ax. by rewrite Hv.
Qed.

(** ** Direct mode *)

(** C5. In direct mode, a pass from [source] sets the offset of every other
    live handle, on every enabled axis, to the raw offset of the source on
    that axis, whatever the handle's own range. *)
Theorem direct_pass_mirrors_offset source st target ax :
  proportional options = false →
  isSyncing st = false →
  Some target ∈ refs st → target ≠ source →
  enabled options ax = true →
  offset ax (dom (scrollHandler source st) target) = offset ax (dom st source)
  ∧ mkWrite target ax (offset ax (dom st source)) ∈ pass_writes source st.
Proof.
  intros Hp Hs Hin Hne Hen.
  assert (spec_assigns st ax target = true) as Hc.
  { unfold UseSyncScroll.spec_assigns. by rewrite Hen, Hp. }
  assert (spec_value source st ax target = offset ax (dom st source)) as Hv.
  { unfold UseSyncScroll.spec_value. by rewrite Hp. }
  destruct (scrollHandler_pass source st Hs) as (_ & _ & _ & _ & _ & _ & Ho).
  split.
  - rewrite Ho, Hc, andb_true_r, Hv.
    by rewrite (proj2 (is_target_true source (refs st) target)).
  - rewrite pass_writes_spec by done. apply elem_of_spec_pass_writes.
    exists target, ax. by rewrite Hv.
Qed.

(** ** Ranges and bounds *)

Lemma spec_assigns_proportional st ax t :
  proportional options = true →
  spec_assigns st ax t = true →
  enabled options ax = true ∧ (0 < range ax (dom st t))%Q.
Proof.
  unfold UseSyncScroll.spec_assigns. intros ->. rewrite andb_true_iff, Qgtb_true. done.
Qed.

Lemma getScrollPercentage_spec el ax :
  percent_on ax (getScrollPercentage el) = spec_percent ax el.
Proof. by destruct ax. Qed.

Lemma spec_percent_no_range ax el :
  (range ax el <= 0)%Q → spec_percent ax el = 0%Q.
Proof.
  intros H. unfold spec_percent.
  by rewrite (proj2 (Qgtb_false (range ax el) 0) H).
Qed.

Lemma spec_percent_bounds ax el :
  (0 <= offset ax el)%Q → (offset ax el <= range ax el)%Q →
  (0 <= spec_percent ax el)%Q ∧ (spec_percent ax el <= 1)%Q.
Proof.
  intros H0 H1. unfold spec_percent.
  destruct (Qgtb (range ax el) 0) eqn:Hr; [|done].
  apply Qgtb_true in Hr. split.
  - apply Qle_shift_div_l; [done|]. by rewrite Qmult_0_l.
  - apply Qle_shift_div_r; [done|]. by rewrite Qmult_1_l.
Qed.

(** C3. A handle whose range on an axis is not positive is never assigned
    on that axis by a proportional pass and keeps its offset; taken as a
    source, its percentage on that axis is [0], and the percentages do not
    depend on what a division by zero would return: none is evaluated. *)
Theorem zero_range_safety source st target ax :
  (range ax (dom st target) <= 0)%Q →
  (proportional options = true →
   Forall (λ w, ¬ (w_target w = target ∧ w_axis w = ax)) (pass_writes source st)
   ∧ offset ax (dom (scrollHandler source st) target) = offset ax (dom st target))
  ∧ percent_on ax (getScrollPercentage (dom st target)) = 0%Q
  ∧ ∀ d el, getScrollPercentage_with (div_or d) el = getScrollPercentage el.
Proof.
  intros Hr. split_and!.
  - intros Hp.
    assert (spec_assigns st ax target = false) as Hc.
    { apply not_true_is_false. intros Hc.
      apply (spec_assigns_proportional _ _ _ Hp) in Hc as [_ Hc].
      by apply Qlt_not_le in Hc. }
    destruct (isSyncing st) eqn:Hs.
    + rewrite pass_writes_guarded, scrollHandler_guarded by done.
      split; [apply Forall_nil_2 | done].
    + split.
      * rewrite pass_writes_spec by done. apply Forall_forall. intros w Hw.
        apply elem_of_spec_pass_writes in Hw as (t & ax' & -> & _ & _ & Hc').
        simpl. intros [-> ->]. congruence.
      * destruct (scrollHandler_pass source st Hs) as (_ & _ & _ & _ & _ & _ & Ho).
        by rewrite Ho, Hc, andb_false_r.
  - rewrite getScrollPercentage_spec. by apply spec_percent_no_range.
  - intros d el. unfold getScrollPercentage, getScrollPercentage_with, div_or.
    assert (∀ r, Qgtb r 0 = true → Qeq_bool r 0 = false) as Hz.
    { intros r Hgt. apply Qgtb_true in Hgt. apply not_true_is_false.
      intros Heq. apply Qeq_bool_iff in Heq. rewrite Heq in Hgt.
      by apply Qlt_irrefl in Hgt. }
    f_equal.
    + destruct (Qgtb _ 0) eqn:Hgt; [|done]. by rewrite (Hz _ Hgt).
    + destruct (Qgtb _ 0) eqn:Hgt; [|done]. by rewrite (Hz _ Hgt).
Qed.

(** C9. In proportional mode, when the source's offset lies between [0] and
    its range on each axis, every value a pass assigns to a target lies
    between [0] and that target's own range on the assigned axis. *)
Theorem proportional_writes_within_bounds source st :
  proportional options = true →
  (∀ ax, (0 <= offset ax (dom st source))%Q
         ∧ (offset ax (dom st source) <= range ax (dom st source))%Q) →
  Forall (λ w, enabled options (w_axis w) = true
               ∧ (0 <= w_value w)%Q
               ∧ (w_value w <= range (w_axis w) (dom st (w_target w)))%Q)
         (pass_writes source st).
Proof.
  intros Hp Hsrc. destruct (isSyncing st) eqn:Hs.
  { rewrite pass_writes_guarded by done. apply Forall_nil_2. }
  rewrite pass_writes_spec by done. apply Forall_forall. intros w Hw.
  apply elem_of_spec_pass_writes in Hw as (t & ax & -> & _ & _ & Hc).
  apply (spec_assigns_proportional _ _ _ Hp) in Hc as [Hen Hpos].
  destruct (Hsrc ax) as [H0 H1].
  destruct (spec_percent_bounds ax (dom st source) H0 H1) as [Hp0 Hp1].
  simpl. unfold UseSyncScroll.spec_value. rewrite Hp. split_and!.
  - done.
  - apply Qmult_le_0_compat; [done | by apply Qlt_le_weak].
  - rewrite <- (Qmult_1_l (range ax (dom st t))) at 2.
    apply Qmult_le_compat_r; [done | by apply Qlt_le_weak].
Qed.

(** ** Axis gating *)

Lemma syncRef_no_axis source vp hp st r :
  vertical options = false → horizontal options = false →
  syncRef source vp hp st r = st.
Proof.
  intros Hv Hh. unfold UseSyncScroll.syncRef, UseSyncScroll.setScrollFromPercentage.
  rewrite Hv, Hh. simpl. destruct r; [|done].
  by destruct (bool_decide _), (proportional options).
Qed.

Lemma foldl_syncRef_no_axis source vp hp rs st :
  vertical options = false → horizontal options = false →
  foldl (syncRef source vp hp) st rs = st.
Proof.
  intros Hv Hh. induction rs as [|r rs IH]; [done|].
  simpl. by rewrite syncRef_no_axis.
Qed.

(** C10. With both axes disabled, in either mode, a scroll event seen while
    the guard is clear only sets the guard and queues its release; seen
    while the guard is set it does nothing.  No offset is assigned and the
    DOM is the one before the event. *)
Theorem both_axes_disabled source st :
  vertical options = false → horizontal options = false →
  scrollHandler source st
  = (if isSyncing st then st else setTimeout ReleaseGuard (set_isSyncing true st))
  ∧ pass_writes source st = []
  ∧ dom (scrollHandler source st) = dom st.
Proof.
  intros Hv Hh.
  assert (scrollHandler source st
          = if isSyncing st then st
            else setTimeout ReleaseGuard (set_isSyncing true st)) as Heq.
  { unfold UseSyncScroll.scrollHandler. destruct (isSyncing st); [done|].
    destruct (getScrollPercentage _) as [vp hp].
    by rewrite foldl_syncRef_no_axis. }
  split_and!; [done| |].
  - unfold UseSyncScroll.pass_writes. rewrite Heq.
    destruct (isSyncing st); apply drop_all.
  - rewrite Heq. by destruct (isSyncing st).
Qed.

(** C8. With the horizontal axis disabled (in particular with
    [vertical: true, horizontal: false]), in either mode, a scroll event
    leaves the horizontal offset of every element as it was, also when the
    event comes from a horizontal scroll of its source [a]; every assignment
    of the pass is a vertical one, to an element other than the source. *)
Theorem horizontal_axis_gated source st :
  horizontal options = false →
  (∀ e, scrollLeft (dom (scrollHandler source st) e) = scrollLeft (dom st e))
  ∧ Forall (λ w, w_axis w = Vertical ∧ w_target w ≠ source) (pass_writes source st)
  ∧ (∀ a v e, e ≠ a →
       scrollLeft (dom (scrollHandler a (step st (UserScroll a Horizontal v))) e)
       = scrollLeft (dom st e)).
Proof.
  intros Hh.
  assert (∀ s e, spec_assigns s Horizontal e = false) as Hc.
  { intros s e. unfold UseSyncScroll.spec_assigns. simpl. by rewrite Hh. }
  assert (∀ src s e, scrollLeft (dom (scrollHandler src s) e) = scrollLeft (dom s e))
    as Hleft.
  { intros src s e. destruct (isSyncing s) eqn:Hs.
    - by rewrite scrollHandler_guarded.
    - destruct (scrollHandler_pass src s Hs) as (_ & _ & _ & _ & _ & _ & Ho).
      specialize (Ho e Horizontal). by rewrite Hc, andb_false_r in Ho. }
  split_and!.
  - apply Hleft.
  - destruct (isSyncing st) eqn:Hs.
    { rewrite pass_writes_guarded by done. apply Forall_nil_2. }
    rewrite pass_writes_spec by done. apply Forall_forall. intros w Hw.
    apply elem_of_spec_pass_writes in Hw as (t & ax & -> & _ & Hne & Hw).
    simpl. split; [|done]. destruct ax; [done|]. by rewrite Hc in Hw.
  - intros a v e Hne. rewrite Hleft. simpl. by rewrite fn_lookup_insert_ne.
Qed.

(** ** The host's actions *)

Lemma run_app acts1 acts2 st : run (acts1 ++ acts2) st = run acts2 (run acts1 st).
Proof. apply foldl_app. Qed.

Lemma listeners_scrollHandler source st :
  listeners (scrollHandler source st) = listeners st.
Proof.
  destruct (isSyncing st) eqn:Hs.
  - by rewrite scrollHandler_guarded.
  - by destruct (scrollHandler_pass source st Hs) as (_ & _ & -> & _).
Qed.

(** The host's actions neither register nor remove the handler. *)
Lemma listeners_step st a : listeners (step st a) = listeners st.
Proof.
  destruct a as [el ax v| |i c]; simpl; try done.
  destruct (tasks st) as [|[el|] rest]; try done.
  unfold UseSyncScroll.dispatch. case_bool_decide; [|done].
  by rewrite listeners_scrollHandler.
Qed.

Lemma listeners_run acts : ∀ st, listeners (run acts st) = listeners st.
Proof.
  induction acts as [|a acts IH]; intros st; [done|].
  simpl. by rewrite IH, listeners_step.
Qed.

(** Where the handler is registered nowhere, the host's actions make the
    hook assign nothing. *)
Lemma writes_run_unobserved acts : ∀ st,
  listeners st = ∅ → writes (run acts st) = writes st.
Proof.
  induction acts as [|a acts IH]; intros st Hl; [done|].
  simpl. rewrite IH by by rewrite listeners_step.
  destruct a as [el ax v| |i c]; simpl; try done.
  destruct (tasks st) as [|[el|] rest]; try done.
  unfold UseSyncScroll.dispatch. simpl. rewrite Hl.
  by rewrite bool_decide_eq_false_2 by set_solver.
Qed.

(** ** Establishing a session *)

(** C4. With fewer than two refs the effect returns at once: the state is
    untouched, no cleanup is returned, the handler is registered on no
    element, and whatever the host does afterwards (scrolls, queued events,
    refs being set) the hook assigns no offset.  [listeners st = ∅] says that
    the handler of the session being established is new. *)
Theorem establish_below_two st acts :
  (length (refs st) < 2)%nat →
  listeners st = ∅ →
  useEffect_body st = (st, None)
  ∧ listeners (run acts (useEffect_body st).1) = ∅
  ∧ writes (run acts (useEffect_body st).1) = writes st.
Proof.
  intros Hlen Hl.
  assert (useEffect_body st = (st, None)) as ->.
  { unfold useEffect_body. by rewrite (proj2 (Nat.ltb_lt _ _) Hlen). }
  simpl. split_and!; [done| |].
  - by rewrite listeners_run.
  - by apply writes_run_unobserved.
Qed.

(** ** The reentrancy guard *)

Lemma pending_releases_app q1 q2 :
  pending_releases (q1 ++ q2) = (pending_releases q1 + pending_releases q2)%nat.
Proof. unfold pending_releases. by rewrite filter_app, length_app. Qed.

Lemma pending_releases_events evs : pending_releases (map ScrollEvent evs) = 0%nat.
Proof. induction evs as [|e evs IH]; [done|]. apply IH. Qed.

Lemma no_pending_release q :
  pending_releases q = 0%nat → ∃ evs, q = map ScrollEvent evs.
Proof.
  induction q as [|[e|] q IH]; intros H.
  - by exists [].
  - destruct (IH H) as [evs ->]. by exists (e :: evs).
  - done.
Qed.

Lemma guard_inv_scrollHandler source st :
  guard_inv st → guard_inv (scrollHandler source st).
Proof.
  unfold guard_inv. intros Hinv. destruct (isSyncing st) eqn:Hs.
  - rewrite scrollHandler_guarded by done. by rewrite Hs.
  - destruct (scrollHandler_pass source st Hs) as (-> & _ & _ & _ & (evs & ->) & _).
    rewrite !pending_releases_app, pending_releases_events, Hinv. done.
Qed.

Lemma guard_inv_step st a : guard_inv st → guard_inv (step st a).
Proof.
  intros Hinv. destruct a as [el ax v| |i c]; simpl.
  - unfold guard_inv in *. simpl. rewrite pending_releases_app, Hinv.
    change (pending_releases [ScrollEvent el]) with 0%nat. lia.
  - destruct (tasks st) as [|[el|] rest] eqn:Hq; [done| |].
    + unfold UseSyncScroll.dispatch. case_bool_decide.
      * apply guard_inv_scrollHandler. unfold guard_inv in *. simpl.
        by rewrite Hq in Hinv.
      * unfold guard_inv in *. simpl. by rewrite Hq in Hinv.
    + unfold guard_inv in *. simpl. rewrite Hq in Hinv.
      destruct (isSyncing st); [|done].
      change (pending_releases (ReleaseGuard :: rest))
        with (S (pending_releases rest)) in Hinv. lia.
  - done.
Qed.

Lemma guard_inv_run acts : ∀ st, guard_inv st → guard_inv (run acts st).
Proof.
  induction acts as [|a acts IH]; intros st Hinv; [done|].
  simpl. by apply IH, guard_inv_step.
Qed.

(** While the guard is set, the scroll events at the head of the queue are
    consumed one per turn and change nothing else. *)
Lemma ticks_discard evs : ∀ st rest,
  isSyncing st = true →
  tasks st = map ScrollEvent evs ++ rest →
  run (replicate (length evs) Tick) st = set_tasks rest st.
Proof.
  induction evs as [|e evs IH]; intros st rest Hs Hq.
  - simpl in *. rewrite <- Hq. by destruct st.
  - simpl in Hq. simpl. rewrite Hq.
    assert (dispatch e (set_tasks (map ScrollEvent evs ++ rest) st)
            = set_tasks (map ScrollEvent evs ++ rest) st) as ->.
    { unfold UseSyncScroll.dispatch. case_bool_decide; [|done].
      by apply scrollHandler_guarded. }
    by rewrite (IH _ rest).
Qed.

(** C2. The guard serialises the passes of a session.  In every state the
    host can reach, the guard is set exactly while one release waits in the
    queue.  A scroll event seen while the guard is set returns the state as
    it was: nothing assigned, nothing queued.  A scroll event seen while it
    is clear leaves the handler with the guard still set and the release
    queued last, behind the notifications raised by the pass's own
    assignments: on each later turn that consumes one of the events queued
    before the release the state does not change otherwise, and the turn
    after them clears the guard. *)
Theorem reentrancy_guard source st acts :
  guard_inv st →
  guard_inv (run acts st)
  ∧ (if isSyncing st
     then scrollHandler source st = st
     else
       let st' := scrollHandler source st in
       isSyncing st' = true
       ∧ (∃ evs, tasks st' = tasks st ++ map ScrollEvent evs ++ [ReleaseGuard])
       ∧ (∀ k, (k < length (tasks st'))%nat →
               run (replicate k Tick) st' = set_tasks (drop k (tasks st')) st')
       ∧ run (replicate (length (tasks st')) Tick) st'
         = set_isSyncing false (set_tasks [] st')).
Proof.
  intros Hinv. split; [by apply guard_inv_run|].
  destruct (isSyncing st) eqn:Hs; [by apply scrollHandler_guarded|].
  intros st'.
  destruct (scrollHandler_pass source st Hs) as (Hs' & _ & _ & _ & (evs & Hq') & _).
  fold st' in Hs', Hq'.
  unfold guard_inv in Hinv. rewrite Hs in Hinv.
  destruct (no_pending_release _ Hinv) as [old Hold].
  assert (tasks st' = map ScrollEvent (old ++ evs) ++ [ReleaseGuard]) as Hall.
  { by rewrite Hq', Hold, map_app, <- app_assoc. }
  assert (∀ k, (k ≤ length (old ++ evs))%nat →
               run (replicate k Tick) st' = set_tasks (drop k (tasks st')) st') as Hk.
  { intros k Hle.
    rewrite <- (length_take_le (old ++ evs) k) at 1 by done.
    apply ticks_discard; [done|].
    rewrite Hall at 1. rewrite <- (take_drop k (old ++ evs)) at 1.
    rewrite map_app, <- app_assoc. f_equal.
    rewrite Hall, (drop_app_le (map ScrollEvent (old ++ evs)))
      by (by rewrite length_map).
    by rewrite skipn_map. }
  assert (length (tasks st') = S (length (old ++ evs))) as Hlen.
  { rewrite Hall, length_app, length_map. simpl. lia. }
  split_and!.
  - done.
  - by exists evs.
  - intros k Hlt. apply Hk. lia.
  - rewrite Hlen. rewrite replicate_S_end, run_app, Hk by done.
    rewrite Hall, drop_app_length'; [done|]. by rewrite length_map.
Qed.

End HookFacts.

(** ** Attaching and releasing *)

Lemma live_elements_cons r rs :
  live_elements (r :: rs)
  = match r with Some el => {[el]} ∪ live_elements rs | None => live_elements rs end.
Proof. by destruct r. Qed.

Lemma elem_of_live_elements rs e : e ∈ live_elements rs ↔ Some e ∈ rs.
Proof.
  induction rs as [|r rs IH].
  - unfold live_elements. simpl. split; [set_solver | by intros ?%elem_of_nil].
  - rewrite live_elements_cons, elem_of_cons. destruct r as [el|].
    + rewrite elem_of_union, elem_of_singleton, IH. naive_solver.
    + rewrite IH. naive_solver.
Qed.

Lemma attach_loop rs : ∀ st,
  foldl (λ s ref, match ref with
                  | Some el => addEventListener el s
                  | None => s
                  end) st rs
  = set_listeners (live_elements rs ∪ listeners st) st.
Proof.
  induction rs as [|r rs IH]; intros st.
  - destruct st. unfold set_listeners. simpl. f_equal.
    unfold live_elements. simpl. set_solver.
  - simpl foldl. rewrite IH, live_elements_cons. destruct r as [el|]; [|done].
    unfold addEventListener, set_listeners. simpl. f_equal. set_solver.
Qed.

Lemma cleanup_loop rs : ∀ st,
  foldl (λ s ref, match ref with
                  | Some el => removeEventListener el s
                  | None => s
                  end) st rs
  = set_listeners (listeners st ∖ live_elements rs) st.
Proof.
  induction rs as [|r rs IH]; intros st.
  - destruct st. unfold set_listeners. simpl. f_equal.
    unfold live_elements. simpl. set_solver.
  - simpl foldl. rewrite IH, live_elements_cons. destruct r as [el|]; [|done].
    unfold removeEventListener, set_listeners. simpl. f_equal. set_solver.
Qed.

Lemma attach_eq st :
  attach st = set_listeners (live_elements (refs st) ∪ listeners st) st.
Proof. apply attach_loop. Qed.

Lemma cleanup_eq st :
  cleanup st = set_listeners (listeners st ∖ live_elements (refs st)) st.
Proof. apply cleanup_loop. Qed.

Lemma cleanup_idempotent st : cleanup (cleanup st) = cleanup st.
Proof.
  rewrite !cleanup_eq. unfold set_listeners. simpl. f_equal. set_solver.
Qed.

(** What the cleanup removes.  It reads the refs again instead of the
    elements the effect attached to, so the observers left after it are those
    of the elements the refs resolved to when the effect ran and resolve to
    no longer; none is left when the refs resolve as they did.  Running it
    twice is the same as running it once. *)
Lemma cleanup_removes_currently_live notifies options st0 st1 release acts :
  listeners st0 = ∅ →
  useEffect_body st0 = (st1, Some release) →
  let st := run notifies options acts st1 in
  listeners (release st) = live_elements (refs st0) ∖ live_elements (refs st)
  ∧ (∀ e, e ∈ listeners st1 → Some e ∈ refs st → e ∉ listeners (release st))
  ∧ (refs st = refs st0 → listeners (release st) = ∅)
  ∧ release (release st) = release st.
Proof.
  intros Hl Heff st. unfold useEffect_body in Heff.
  destruct (length (refs st0) <? 2)%nat; [done|].
  injection Heff as <- <-.
  assert (listeners (cleanup st)
          = live_elements (refs st0) ∖ live_elements (refs st)) as Hrel.
  { rewrite cleanup_eq. simpl. unfold st. rewrite listeners_run, attach_eq. simpl.
    rewrite Hl. set_solver. }
  split_and!.
  - done.
  - intros e _ He. rewrite Hrel. apply elem_of_live_elements in He. set_solver.
  - intros Hrefs. rewrite Hrel, Hrefs. set_solver.
  - apply cleanup_idempotent.
Qed.

(** ** The editor page *)

(** C7. The page hands the hook exactly two refs, the textarea and the div
    showing the rendered markup, with [proportional], [vertical] and
    [horizontal] all true; a text change stores the new text, calls the
    renderer on it, and the resumed call stores the renderer's output as the
    markup, which is what the div then shows; after any run of edits, each
    rendered before the next, the text is the last one typed and the markup
    is its rendering; and once both surfaces are mounted the effect
    registers the handler on exactly those two elements. *)
Theorem editor_view_wiring (marked : string → string) st text :
  map EditorView.ref_target EditorView.sync_refs
  = [EditorView.Textarea; EditorView.PreviewDiv]
  ∧ (proportional EditorView.sync_options = true
     ∧ vertical EditorView.sync_options = true
     ∧ horizontal EditorView.sync_options = true)
  ∧ (let st1 := EditorView.handleChange marked text st in
     EditorView.value st1 = text
     ∧ EditorView.awaiting st1 = EditorView.awaiting st ++ [marked text]
     ∧ let st2 := EditorView.resume (length (EditorView.awaiting st)) st1 in
       EditorView.value st2 = text
       ∧ EditorView.markedHtml st2 = marked text
       ∧ EditorView.shown EditorView.PreviewDiv st2 = marked text
       ∧ EditorView.awaiting st2 = EditorView.awaiting st)
  ∧ (∀ texts,
       let st' := foldl (EditorView.edit marked) st (texts ++ [text]) in
       EditorView.value st' = text ∧ EditorView.markedHtml st' = marked text)
  ∧ (∀ el d b q w,
       listeners (useEffect_body
                    (mkState d (EditorView.mounted_refs el) b ∅ q w)).1
       = {[el EditorView.Textarea; el EditorView.PreviewDiv]}).
Proof.
  assert (∀ s, EditorView.resume (length (EditorView.awaiting s))
                 (EditorView.handleChange marked text s)
               = EditorView.mkEditor text (marked text) (EditorView.awaiting s)) as Hedit.
  { intros s. unfold EditorView.resume, EditorView.handleChange. simpl.
    rewrite lookup_app_r, Nat.sub_diag by done. simpl.
    by rewrite delete_middle, app_nil_r. }
  split_and!; try done.
  - cbv zeta. rewrite Hedit. done.
  - intros texts. rewrite foldl_snoc. unfold EditorView.edit at 1 2.
    by rewrite Hedit.
  - intros el d b q w. unfold useEffect_body. simpl. set_solver.
Qed.

(** ** The properties on concrete pages *)

Section ConcretePages.

Import Examples.

Local Abbreviation host := always_notifies.

(** The specification's proportional example: A at the end of its range of
    50 brings B, whose range is 200, to 200. *)
Lemma proportional_pass_sets_offset_witness :
  (offset Vertical (dom (scrollHandler host no_options 1 page) 2) == 200)%Q.
Proof.
  destruct (proportional_pass_sets_offset host no_options 1 page 2 Vertical)
    as [H _].
  - reflexivity.
  - reflexivity.
  - repeat constructor.
  - lia.
  - reflexivity.
  - reflexivity.
  - rewrite H. vm_compute. reflexivity.
Defined.

(** The specification's direct example: A scrolled to 77 brings B to 77. *)
Lemma direct_pass_mirrors_offset_witness :
  scrollTop (dom (scrollHandler host direct 1
                    (step host direct page (UserScroll 1 Vertical 77))) 2)
  = 77%Q.
Proof.
  destruct (direct_pass_mirrors_offset host direct 1
              (step host direct page (UserScroll 1 Vertical 77)) 2 Vertical)
    as [H _].
  - reflexivity.
  - reflexivity.
  - repeat constructor.
  - lia.
  - reflexivity.
  - exact H.
Defined.

(** A cannot scroll horizontally: a pass from B leaves its horizontal offset
    alone, and as a source its horizontal percentage is 0. *)
Lemma zero_range_safety_witness :
  offset Horizontal (dom (scrollHandler host no_options 2 page) 1)
  = offset Horizontal (dom page 1)
  ∧ percent_on Horizontal (getScrollPercentage (dom page 1)) = 0%Q.
Proof.
  destruct (zero_range_safety host no_options 2 page 1 Horizontal)
    as (H1 & H2 & _).
  - vm_compute. discriminate.
  - destruct (H1 eq_refl) as [_ H]. split; [exact H | exact H2].
Defined.

Lemma proportional_writes_within_bounds_witness :
  Forall (λ w, enabled no_options (w_axis w) = true
               ∧ (0 <= w_value w)%Q
               ∧ (w_value w <= range (w_axis w) (dom page (w_target w)))%Q)
         (pass_writes host no_options 1 page).
Proof.
  apply (proportional_writes_within_bounds host no_options 1 page).
  - reflexivity.
  - intros ax. destruct ax; split; vm_compute; discriminate.
Defined.

Lemma both_axes_disabled_witness :
  pass_writes host (no_axis true) 1 page = []
  ∧ dom (scrollHandler host (no_axis true) 1 page) = dom page.
Proof.
  destruct (both_axes_disabled host (no_axis true) 1 page) as (_ & H1 & H2).
  - reflexivity.
  - reflexivity.
  - split; [exact H1 | exact H2].
Defined.

(** B can scroll horizontally, yet a horizontal scroll of A does not move it
    when only the vertical axis is synchronised. *)
Lemma horizontal_axis_gated_witness :
  scrollLeft (dom (scrollHandler host (vertical_only true) 1
                     (step host (vertical_only true) page (UserScroll 1 Horizontal 30))) 2)
  = scrollLeft (dom page 2).
Proof.
  destruct (horizontal_axis_gated host (vertical_only true) 1 page) as (_ & _ & H).
  - reflexivity.
  - apply H. lia.
Defined.

Lemma establish_below_two_witness :
  writes (run host no_options [UserScroll 1 Vertical 10; Tick; Tick]
              (useEffect_body single).1)
  = writes single.
Proof.
  destruct (establish_below_two host no_options single
              [UserScroll 1 Vertical 10; Tick; Tick]) as (_ & _ & H).
  - simpl. lia.
  - reflexivity.
  - exact H.
Defined.

Lemma reentrancy_guard_witness :
  guard_inv (run host no_options [UserScroll 1 Vertical 10; Tick; Tick; Tick]
                 (attach page)).
Proof.
  destruct (reentrancy_guard host no_options 1 (attach page)
              [UserScroll 1 Vertical 10; Tick; Tick; Tick]) as [H _].
  - reflexivity.
  - exact H.
Defined.

(** C6.  The release does not detach every observer the session attached.
    On the example page the effect attaches the handler to elements 1 and 2.
    When both refs are null at the time of the cleanup, as they are when the
    component unmounts, the cleanup removes nothing and both observers stay.
    When only the second ref is null, the observer on element 2 stays, and a
    later scroll of element 2 still runs a pass that assigns element 1: the
    released session keeps synchronising.  Running the cleanup twice is the
    same as running it once. *)
Theorem cleanup_leaves_observers :
  let established := (useEffect_body page).1 in
  let unmounted :=
    cleanup (run host no_options [SetCurrent 0 None; SetCurrent 1 None] established) in
  let released :=
    cleanup (run host no_options [SetCurrent 1 None] established) in
  listeners page = ∅
  ∧ useEffect_body page = (attach page, Some cleanup)
  ∧ elements (listeners established) = [2%nat; 1%nat]
  ∧ elements (listeners unmounted) = [2%nat; 1%nat]
  ∧ elements (listeners released) = [2%nat]
  ∧ map (λ w, (w_target w, w_axis w))
        (writes (run host no_options [UserScroll 2 Vertical 100; Tick] released))
    = [(1%nat, Vertical)]
  ∧ cleanup released = released.
Proof.
  cbv zeta. split_and!; try reflexivity; vm_compute; reflexivity.
Qed.

(** The feedback loop is broken on the example page: A is scrolled, the
    pass assigns both offsets of B, the two notifications raised on B are
    fired at B while the guard is set and dropped, and the next turn clears
    the guard.  B was assigned once per axis and A never. *)
Example feedback_loop_broken :
  let st := run host no_options [UserScroll 1 Vertical 25; Tick; Tick; Tick; Tick]
                (attach page) in
  map (λ w, (w_target w, w_axis w)) (writes st)
  = [(2%nat, Vertical); (2%nat, Horizontal)]
  ∧ (scrollTop (dom st 2) == 100)%Q
  ∧ isSyncing st = false
  ∧ tasks st = [].
Proof. vm_compute. split_and!; reflexivity. Qed.

(** Typing "hi" on the fresh editor page shows its rendering. *)
Example editor_types_hi :
  let st := foldl (EditorView.edit paragraph) EditorView.initial ["h"; "hi"]%string in
  EditorView.shown EditorView.Textarea st = "hi"%string
  ∧ EditorView.shown EditorView.PreviewDiv st = "<p>hi</p>"%string.
Proof. split; reflexivity. Qed.

End ConcretePages.

(** * Further properties of the hook *)

Section PassFacts.

Variable notifies : HTMLElement → Axis → Q → bool.
Variable options : UseSyncScrollOptions.

Local Abbreviation set_scroll := (set_scroll notifies).
Local Abbreviation syncRef := (syncRef notifies options).
Local Abbreviation scrollHandler := (scrollHandler notifies options).
Local Abbreviation pass_writes := (pass_writes notifies options).
Local Abbreviation spec_value := (spec_value options).
Local Abbreviation spec_assigns := (spec_assigns options).
Local Abbreviation dispatch := (dispatch notifies options).
Local Abbreviation step := (step notifies options).
Local Abbreviation run := (run notifies options).

(** ** What a pass leaves alone *)

Lemma extents_set_scroll t ax v st e :
  extents (dom (set_scroll t ax v st) e) = extents (dom st e).
Proof.
  rewrite dom_set_scroll. case_decide; [subst; by destruct ax | done].
Qed.

Lemma extents_syncRef source vp hp st r e :
  extents (dom (syncRef source vp hp st r) e) = extents (dom st e).
Proof.
  unfold UseSyncScroll.syncRef, UseSyncScroll.setScrollFromPercentage.
  destruct r as [t|]; [|done]. destruct (bool_decide (t ≠ source)); [|done].
  destruct (proportional options).
  - destruct (vertical options && _), (horizontal options && _);
      rewrite ?extents_set_scroll; done.
  - destruct (vertical options), (horizontal options);
      rewrite ?extents_set_scroll; done.
Qed.

Lemma extents_foldl_syncRef source vp hp rs e : ∀ st,
  extents (dom (foldl (syncRef source vp hp) st rs) e) = extents (dom st e).
Proof.
  induction rs as [|r rs IH]; intros st; [done|].
  simpl. by rewrite IH, extents_syncRef.
Qed.

Lemma extents_scrollHandler source st e :
  extents (dom (scrollHandler source st) e) = extents (dom st e).
Proof.
  unfold UseSyncScroll.scrollHandler. destruct (isSyncing st); [done|].
  destruct (getScrollPercentage _) as [vp hp]. simpl.
  by rewrite extents_foldl_syncRef.
Qed.

Lemma element_eq el el' :
  extents el = extents el' → (∀ ax, offset ax el = offset ax el') → el = el'.
Proof.
  destruct el, el'. unfold extents. simpl. intros [= -> -> -> ->] Ho.
  pose proof (Ho Vertical) as HV. pose proof (Ho Horizontal) as HH.
  simpl in HV, HH. by subst.
Qed.

Lemma is_target_false source rs e :
  is_target source rs e = false ↔ (e = source ∨ Some e ∉ rs).
Proof.
  rewrite <- not_true_iff_false, is_target_true.
  destruct (decide (e = source)); destruct (decide (Some e ∈ rs)); tauto.
Qed.

(** X1. A call of the handler, in either mode and whatever the guard,
    changes no element other than the live handles distinct from its source:
    the source and every element no ref resolves to are exactly as before;
    no element has its extents changed; every recorded assignment goes to a
    live handle other than the source, on an enabled axis; the refs and the
    registrations of the handler are untouched. *)
Theorem pass_frame source st :
  let st' := scrollHandler source st in
  (∀ e, e = source ∨ Some e ∉ refs st → dom st' e = dom st e)
  ∧ (∀ e, extents (dom st' e) = extents (dom st e))
  ∧ Forall (λ w, Some (w_target w) ∈ refs st ∧ w_target w ≠ source
                 ∧ enabled options (w_axis w) = true)
           (pass_writes source st)
  ∧ refs st' = refs st
  ∧ listeners st' = listeners st.
Proof.
  intros st'. unfold st'. destruct (isSyncing st) eqn:Hs.
  { rewrite pass_writes_guarded, scrollHandler_guarded by done.
    split_and!; done. }
  destruct (scrollHandler_pass notifies options source st Hs)
    as (_ & Hr & Hl & _ & _ & _ & Ho).
  split_and!; try done.
  - intros e He. apply element_eq; [apply extents_scrollHandler|].
    intros ax. rewrite Ho.
    by rewrite (proj2 (is_target_false source (refs st) e) He).
  - apply extents_scrollHandler.
  - rewrite pass_writes_spec by done. apply Forall_forall. intros w Hw.
    apply elem_of_spec_pass_writes in Hw as (t & ax & -> & Hin & Hne & Hc).
    simpl. split_and!; try done.
    unfold UseSyncScroll.spec_assigns in Hc. by apply andb_true_iff in Hc as [? _].
Qed.

(** ** The two ends of the range *)

(** X2. A proportional pass keeps the two ends.  For every other live
    handle that can scroll on an enabled axis: when the source stands at
    offset 0 the handle is sent to offset 0, and when the source can scroll
    and stands at the end of its range the handle is sent to the end of its
    own range. *)
Theorem proportional_pass_preserves_ends source st target ax :
  proportional options = true →
  isSyncing st = false →
  Some target ∈ refs st → target ≠ source →
  enabled options ax = true →
  (0 < range ax (dom st target))%Q →
  ((offset ax (dom st source) == 0)%Q →
   (offset ax (dom (scrollHandler source st) target) == 0)%Q)
  ∧ ((0 < range ax (dom st source))%Q →
     (offset ax (dom st source) == range ax (dom st source))%Q →
     (offset ax (dom (scrollHandler source st) target)
      == range ax (dom st target))%Q).
Proof.
  intros Hp Hs Hin Hne Hen Hpos.
  destruct (scrollHandler_pass notifies options source st Hs)
    as (_ & _ & _ & _ & _ & _ & Ho).
  rewrite Ho, (proj2 (is_target_true source (refs st) target)) by done.
  unfold UseSyncScroll.spec_assigns, UseSyncScroll.spec_value.
  rewrite Hen, Hp, (proj2 (Qgtb_true _ _) Hpos). simpl. unfold spec_percent.
  split.
  - intros Hstart. destruct (Qgtb (range ax (dom st source)) 0).
    + rewrite Hstart. unfold Qdiv. by rewrite !Qmult_0_l.
    + apply Qmult_0_l.
  - intros Hsrc Hend. rewrite (proj2 (Qgtb_true _ _) Hsrc), Hend.
    unfold Qdiv. rewrite Qmult_inv_r.
    + apply Qmult_1_l.
    + intros Hz. rewrite Hz in Hsrc. by apply Qlt_irrefl in Hsrc.
Qed.

(** ** Passes one after the other *)

Lemma spec_assigns_ext s s' ax e :
  (∀ e ax, range ax (dom s' e) = range ax (dom s e)) →
  spec_assigns s' ax e = spec_assigns s ax e.
Proof. intros Hr. unfold UseSyncScroll.spec_assigns. by rewrite Hr. Qed.

Lemma spec_value_ext source s s' ax e :
  (∀ e ax, range ax (dom s' e) = range ax (dom s e)) →
  (∀ ax, offset ax (dom s' source) = offset ax (dom s source)) →
  spec_value source s' ax e = spec_value source s ax e.
Proof.
  intros Hr Ho. unfold UseSyncScroll.spec_value, spec_percent.
  by rewrite !Hr, !Ho.
Qed.

(** X4. Seeing the same scroll position twice changes nothing more: a
    second pass from the same source, after the release of the guard and
    with the source where it was, makes the same assignments and leaves
    every element as the first pass left it. *)
Theorem repeated_pass_idempotent source st :
  isSyncing st = false →
  let st1 := scrollHandler source st in
  let st2 := scrollHandler source (release_guard st1) in
  (∀ e, dom st2 e = dom st1 e)
  ∧ pass_writes source (release_guard st1) = pass_writes source st.
Proof.
  intros Hs st1 st2.
  destruct (scrollHandler_pass notifies options source st Hs)
    as (_ & Hrefs1 & _ & _ & _ & Hr1 & Ho1).
  fold st1 in Hrefs1, Hr1, Ho1.
  assert (∀ ax, offset ax (dom st1 source) = offset ax (dom st source)) as Hsrc.
  { intros ax. rewrite Ho1.
    by rewrite (proj2 (is_target_false source (refs st) source)) by by left. }
  destruct (scrollHandler_pass notifies options source (release_guard st1) eq_refl)
    as (_ & _ & _ & _ & _ & _ & Ho2).
  fold st2 in Ho2. split.
  - intros e. apply element_eq.
    + unfold st2. rewrite extents_scrollHandler. done.
    + intros ax. rewrite Ho2.
      change (refs (release_guard st1)) with (refs st1). rewrite Hrefs1.
      rewrite (spec_assigns_ext st (release_guard st1)) by done.
      rewrite (spec_value_ext source st (release_guard st1)) by done.
      change (dom (release_guard st1) e) with (dom st1 e). rewrite Ho1.
      by destruct (is_target source (refs st) e && spec_assigns st ax e).
  - rewrite !pass_writes_spec by done. unfold UseSyncScroll.spec_pass_writes.
    change (refs (release_guard st1)) with (refs st1). rewrite Hrefs1.
    apply flat_map_ext. intros [t|]; [|done]. simpl.
    unfold UseSyncScroll.spec_axis_writes.
    rewrite !(spec_assigns_ext st (release_guard st1)) by done.
    by rewrite !(spec_value_ext source st (release_guard st1)) by done.
Qed.

(** ** Handles that become live after the effect ran *)

(** X5. The effect registers the handler once, on the elements its refs
    resolve to when it runs, and nothing registers it later: an element no
    ref resolved to at that time never has the handler for the life of the
    session, whatever the host does (also once a ref resolves to it), so a
    scroll event fired at it is not seen by the hook. *)
Theorem late_handle_never_drives st0 st1 release acts e :
  listeners st0 = ∅ →
  useEffect_body st0 = (st1, Some release) →
  Some e ∉ refs st0 →
  let st := run acts st1 in
  (e ∉ listeners st) ∧ dispatch e st = st.
Proof.
  intros Hl Heff He st. unfold useEffect_body in Heff.
  destruct (length (refs st0) <? 2)%nat; [done|].
  injection Heff as <- <-.
  assert (e ∉ listeners st) as Hnot.
  { unfold st. rewrite listeners_run, attach_eq. simpl. rewrite Hl.
    rewrite elem_of_union, elem_of_live_elements. set_solver. }
  split; [done|].
  unfold UseSyncScroll.dispatch. by rewrite bool_decide_eq_false_2.
Qed.

(** ** The guard is always released *)

Lemma one_pending_release q :
  pending_releases q = 1%nat →
  ∃ evs rest, q = map ScrollEvent evs ++ ReleaseGuard :: rest
              ∧ pending_releases rest = 0%nat.
Proof.
  induction q as [|[e|] q IH]; intros H.
  - done.
  - destruct (IH H) as (evs & rest & -> & Hrest). by exists (e :: evs), rest.
  - exists [], q. split; [done|].
    change (pending_releases (ReleaseGuard :: q)) with (S (pending_releases q)) in H.
    lia.
Qed.

Lemma run_ticks_add n m st :
  run (replicate (n + m) Tick) st = run (replicate m Tick) (run (replicate n Tick) st).
Proof. by rewrite replicate_add, run_app. Qed.

(** With the guard clear and only scroll events waiting, the queue empties
    and the guard is clear again: at most one of the events starts a pass. *)
Lemma drain_clear evs : ∀ st,
  isSyncing st = false →
  tasks st = map ScrollEvent evs →
  ∃ n, tasks (run (replicate n Tick) st) = []
       ∧ isSyncing (run (replicate n Tick) st) = false.
Proof.
  induction evs as [|e evs IH]; intros st Hs Hq.
  - by exists 0%nat.
  - simpl in Hq.
    destruct (decide (e ∈ listeners st)) as [Hin|Hout].
    + set (st0 := set_tasks (map ScrollEvent evs) st).
      destruct (scrollHandler_pass notifies options e st0 Hs)
        as (Hs' & _ & _ & _ & (new & Hq') & _).
      exists (S (S (length (evs ++ new)))).
      replace (S (S (length (evs ++ new))))
        with (1 + (length (evs ++ new) + 1))%nat by lia.
      rewrite run_ticks_add, run_ticks_add.
      assert (run (replicate 1 Tick) st = scrollHandler e st0) as ->.
      { simpl. rewrite Hq. unfold UseSyncScroll.dispatch.
        by rewrite bool_decide_eq_true_2. }
      rewrite (ticks_discard notifies options (evs ++ new) _ [ReleaseGuard] Hs').
      * done.
      * rewrite Hq'. simpl. by rewrite map_app, <- app_assoc.
    + destruct (IH (set_tasks (map ScrollEvent evs) st) Hs eq_refl) as (n & Hn).
      exists (S n). simpl. rewrite Hq. unfold UseSyncScroll.dispatch.
      by rewrite bool_decide_eq_false_2.
Qed.

(** X6. The guard cannot stay set.  From every state in which the guard is
    set exactly while one release is waiting (every state the host can
    reach), serving the queue empties it after finitely many turns and
    leaves the guard clear, so the next scroll event starts a pass: the
    handler queues its release on every path that sets the guard. *)
Theorem guard_released_eventually st :
  guard_inv st →
  ∃ n, tasks (run (replicate n Tick) st) = []
       ∧ isSyncing (run (replicate n Tick) st) = false.
Proof.
  unfold guard_inv. intros Hinv. destruct (isSyncing st) eqn:Hs.
  - destruct (one_pending_release _ Hinv) as (evs & rest & Hq & Hrest).
    destruct (no_pending_release _ Hrest) as [evs' ->].
    pose proof (ticks_discard notifies options evs st _ Hs Hq) as Hd.
    destruct (drain_clear evs'
                (set_isSyncing false (set_tasks (map ScrollEvent evs') st))
                eq_refl eq_refl) as (n & Hn).
    exists (length evs + 1 + n)%nat.
    rewrite run_ticks_add, run_ticks_add, Hd. done.
  - destruct (no_pending_release _ Hinv) as [evs Hq].
    by apply (drain_clear evs).
Qed.

(** ** A source that cannot scroll *)

(** X12. In proportional mode a source that cannot scroll on an enabled
    axis (range not positive) counts as standing at percentage 0, whatever
    its offset: a pass from it, for instance one started by a scroll on its
    other axis, sends every other live handle that can scroll on that axis
    back to offset 0. *)
Theorem flat_source_resets_targets source st target ax :
  proportional options = true →
  isSyncing st = false →
  Some target ∈ refs st → target ≠ source →
  enabled options ax = true →
  (0 < range ax (dom st target))%Q →
  (range ax (dom st source) <= 0)%Q →
  (offset ax (dom (scrollHandler source st) target) == 0)%Q.
Proof.
  intros Hp Hs Hin Hne Hen Hpos Hflat.
  destruct (scrollHandler_pass notifies options source st Hs)
    as (_ & _ & _ & _ & _ & _ & Ho).
  rewrite Ho, (proj2 (is_target_true source (refs st) target)) by done.
  unfold UseSyncScroll.spec_assigns, UseSyncScroll.spec_value.
  rewrite Hen, Hp, (proj2 (Qgtb_true _ _) Hpos). simpl.
  rewrite spec_percent_no_range by done. apply Qmult_0_l.
Qed.

(** ** After the release *)

(** X13. A released session is inert.  When the refs resolve at release
    time as they did when the effect ran, then after the cleanup whatever
    the host does (user scrolls on any element, events and timer callbacks
    still in the queue being served, refs being set) the hook makes no
    assignment and the handler is registered nowhere. *)
Theorem released_session_is_inert st0 st1 release acts acts' :
  listeners st0 = ∅ →
  useEffect_body st0 = (st1, Some release) →
  refs (run acts st1) = refs st0 →
  let st := release (run acts st1) in
  writes (run acts' st) = writes (run acts st1)
  ∧ listeners (run acts' st) = ∅.
Proof.
  intros Hl Heff Hrefs st. unfold useEffect_body in Heff.
  destruct (length (refs st0) <? 2)%nat; [done|].
  injection Heff as <- <-.
  assert (listeners st = ∅) as Hnone.
  { unfold st. rewrite cleanup_eq. unfold set_listeners. cbn [listeners].
    rewrite Hrefs, listeners_run, attach_eq. cbn [listeners set_listeners].
    rewrite Hl. set_solver. }
  split.
  - rewrite (writes_run_unobserved notifies options) by done.
    unfold st. by rewrite cleanup_eq.
  - by rewrite listeners_run.
Qed.

End PassFacts.

(** * Further properties of the editor page *)

(** X7. Scrolling one pane of the editor drives the other, in both
    directions.  On the mounted page (two distinct elements, the effect run,
    nothing in flight), a user scroll of either surface followed by the turn
    that serves its scroll event leaves the scrolled surface at the offset
    the user gave it and, on each axis on which the other surface can
    scroll, the other surface at [percent * its own range], where [percent]
    is the user's offset over the scrolled surface's range when that range
    is positive and 0 otherwise; the guard is then set and its release is
    the last task of the queue. *)
Theorem editor_scroll_drives_other_pane notifies st0
    (el : EditorView.Surface → ElemId) (s s' : EditorView.Surface) ax v :
  refs st0 = EditorView.mounted_refs el →
  listeners st0 = ∅ →
  isSyncing st0 = false →
  tasks st0 = [] →
  el s ≠ el s' →
  (0 < range ax (dom st0 (el s')))%Q →
  let st := run notifies EditorView.sync_options [UserScroll (el s) ax v; Tick]
                (useEffect_body st0).1 in
  let percent :=
    if Qgtb (range ax (dom st0 (el s))) 0
    then (v / range ax (dom st0 (el s)))%Q
    else 0%Q in
  offset ax (dom st (el s)) = v
  ∧ offset ax (dom st (el s')) = (percent * range ax (dom st0 (el s')))%Q
  ∧ isSyncing st = true
  ∧ ∃ evs, tasks st = map ScrollEvent evs ++ [ReleaseGuard].
Proof.
  intros Hrefs Hl Hs Hq Hne Hpos st percent.
  set (st_d := mkState (<[el s := with_offset ax v (dom st0 (el s))]> (dom st0))
                       (refs st0) false
                       (live_elements (refs st0) ∪ listeners st0) [] (writes st0)).
  assert (st = scrollHandler notifies EditorView.sync_options (el s) st_d) as Hst.
  { unfold st, useEffect_body. rewrite Hrefs at 1. simpl fst.
    rewrite attach_eq. unfold run. simpl foldl.
    unfold set_tasks, set_dom, set_listeners. simpl. rewrite Hq. simpl.
    unfold UseSyncScroll.dispatch. simpl.
    rewrite bool_decide_eq_true_2.
    - unfold st_d. by rewrite Hs.
    - rewrite elem_of_union, elem_of_live_elements, Hrefs. left.
      unfold EditorView.mounted_refs. simpl. destruct s; set_solver. }
  assert (Some (el s') ∈ refs st_d) as Hin.
  { simpl. rewrite Hrefs. unfold EditorView.mounted_refs. simpl.
    destruct s'; set_solver. }
  assert (dom st_d (el s') = dom st0 (el s')) as Hds'.
  { simpl. by rewrite fn_lookup_insert_ne. }
  assert (dom st_d (el s) = with_offset ax v (dom st0 (el s))) as Hds.
  { simpl. by rewrite fn_lookup_insert. }
  assert (enabled EditorView.sync_options ax = true) as Hen by by destruct ax.
  destruct (scrollHandler_pass notifies EditorView.sync_options (el s) st_d eq_refl)
    as (Hguard & _ & _ & _ & (evs & Htasks) & _ & Ho).
  rewrite <- Hst in Hguard, Htasks, Ho.
  split_and!.
  - rewrite Ho.
    rewrite (proj2 (is_target_false (el s) (refs st_d) (el s))) by by left.
    rewrite Hds, offset_with_offset. by rewrite decide_True.
  - rewrite Ho, (proj2 (is_target_true (el s) (refs st_d) (el s'))) by done.
    unfold UseSyncScroll.spec_assigns, UseSyncScroll.spec_value.
    rewrite Hen, Hds', (proj2 (Qgtb_true _ _) Hpos).
    cbn [proportional EditorView.sync_options opt_proportional default andb].
    unfold spec_percent, percent.
    rewrite Hds, range_with_offset, offset_with_offset.
    by rewrite decide_True.
  - done.
  - exists evs. by rewrite Htasks.
Qed.

(** ** Renders that complete in and out of order *)

Section RenderRuns.

Variable marked : string → string.

Local Abbreviation handleChange := (EditorView.handleChange marked).
Local Abbreviation resume := EditorView.resume.

Lemma last_nonempty (l : list string) : ∀ a d d',
  List.last (a :: l) d = List.last (a :: l) d'.
Proof.
  induction l as [|b l IH]; intros a d d'; [done|].
  change (List.last (b :: l) d = List.last (b :: l) d'). apply IH.
Qed.

(** Typing a run of texts without any render completing. *)
Lemma typed_run texts : ∀ st,
  let st' := foldl (λ s t, handleChange t s) st texts in
  EditorView.awaiting st' = EditorView.awaiting st ++ map marked texts
  ∧ EditorView.markedHtml st' = EditorView.markedHtml st
  ∧ EditorView.value st' = List.last texts (EditorView.value st).
Proof.
  induction texts as [|t texts IH]; intros st.
  - simpl. by rewrite app_nil_r.
  - simpl foldl. destruct (IH (handleChange t st)) as (Ha & Hm & Hv).
    cbv zeta. rewrite Ha, Hm, Hv. cbn [EditorView.handleChange EditorView.awaiting
      EditorView.markedHtml EditorView.value map]. rewrite <- app_assoc.
    split_and!; try done. destruct texts as [|t' texts]; [done|].
    exact (last_nonempty texts t' _ _).
Qed.

(** Completing the oldest suspended call. *)
Lemma resume_oldest v m html rest :
  resume 0 (EditorView.mkEditor v m (html :: rest)) = EditorView.mkEditor v html rest.
Proof. done. Qed.

Lemma resume_all_in_order pending : ∀ v m html,
  Nat.iter (length (pending ++ [html])) (resume 0)
           (EditorView.mkEditor v m (pending ++ [html]))
  = EditorView.mkEditor v html [].
Proof.
  induction pending as [|h pending IH]; intros v m html.
  - done.
  - simpl length. rewrite Nat.iter_succ_r. simpl app.
    rewrite resume_oldest. apply IH.
Qed.

(** X8. No debounce is needed for the common case: however many texts are
    typed before any render completes, and whatever was still pending, once
    the suspended calls of [handleChange] have all resumed in the order they
    were made, the text is the last one typed, the markup is its rendering,
    and no call is left suspended. *)
Theorem renders_in_order_show_last_text st texts text :
  let typed := foldl (λ s t, handleChange t s) st (texts ++ [text]) in
  let settled := Nat.iter (length (EditorView.awaiting typed)) (resume 0) typed in
  EditorView.value settled = text
  ∧ EditorView.markedHtml settled = marked text
  ∧ EditorView.awaiting settled = [].
Proof.
  intros typed settled.
  destruct (typed_run (texts ++ [text]) st) as (Ha & Hm & Hv).
  fold typed in Ha, Hm, Hv.
  rewrite last_last in Hv. rewrite map_app, app_assoc in Ha. simpl in Ha.
  assert (settled = EditorView.mkEditor text (marked text) []) as ->; [|done].
  unfold settled. destruct typed as [v m a]. simpl in *. subst.
  apply resume_all_in_order.
Qed.

Lemma delete_after_middle (l : list string) a b :
  delete (S (length l)) (l ++ [a; b]) = l ++ [a].
Proof. induction l as [|x l IH]; [done|]. simpl. by rewrite IH. Qed.

(** X9. Nothing ties a completed render to the current text.  When two
    edits are made and the render of the second completes before the render
    of the first, the page ends with the second text in the textarea and the
    rendering of the first text as markup. *)
Theorem late_render_overwrites_markup st text1 text2 :
  let typed := handleChange text2 (handleChange text1 st) in
  let n := length (EditorView.awaiting st) in
  let settled := resume n (resume (S n) typed) in
  EditorView.shown EditorView.Textarea settled = text2
  ∧ EditorView.shown EditorView.PreviewDiv settled = marked text1
  ∧ EditorView.awaiting settled = EditorView.awaiting st.
Proof.
  intros typed n settled. unfold settled, typed, n.
  unfold EditorView.resume, EditorView.handleChange. simpl.
  rewrite <- app_assoc. simpl.
  rewrite (lookup_app_r (EditorView.awaiting st)) by lia.
  replace (S (length (EditorView.awaiting st)) - length (EditorView.awaiting st))%nat
    with 1%nat by lia. simpl.
  rewrite delete_after_middle.
  rewrite (list_lookup_middle (EditorView.awaiting st) [] (marked text1)) by done.
  simpl. rewrite (delete_middle (EditorView.awaiting st) [] (marked text1)).
  by rewrite app_nil_r.
Qed.

End RenderRuns.

(** ** Edits and completions in any order *)

Section EditorRuns.

Import EditorRun.

Variable marked : string → string.

Lemma typed_texts_cons a acts :
  typed_texts (a :: acts)
  = match a with Change text => text :: typed_texts acts | Complete _ => typed_texts acts end.
Proof. by destruct a. Qed.

Lemma value_resume k st : EditorView.value (EditorView.resume k st) = EditorView.value st.
Proof. unfold EditorView.resume. by destruct (_ !! k). Qed.

(** X10. Renders never disturb the text.  After any run of text changes and
    render completions, in any order (also completions that name no
    suspended call), the text state is the one the page without renderer
    (pages/index.tsx) reaches on the typed texts alone: the last text typed,
    or the text before the run when nothing was typed. *)
Theorem renders_never_change_text acts st :
  EditorView.value (editor_run marked acts st)
  = foldl (λ v text, IndexPage.handleChange text v) (EditorView.value st)
          (typed_texts acts)
  ∧ EditorView.value (editor_run marked acts st)
    = List.last (typed_texts acts) (EditorView.value st).
Proof.
  revert st. induction acts as [|a acts IH]; intros st; [done|].
  unfold editor_run in *. simpl foldl. rewrite typed_texts_cons.
  destruct (IH (editor_step marked st a)) as [IH1 IH2].
  destruct a as [text|k]; simpl editor_step in *.
  - split; [by rewrite IH1|]. rewrite IH2. simpl EditorView.value.
    destruct (typed_texts acts) as [|t ts]; [done|].
    exact (last_nonempty ts t _ _).
  - rewrite value_resume in IH1, IH2. by split.
Qed.

Lemma typed_texts_app acts1 acts2 :
  typed_texts (acts1 ++ acts2) = typed_texts acts1 ++ typed_texts acts2.
Proof. apply omap_app. Qed.

(** X11. The markup is never mixed or partial.  After any run of text
    changes and render completions in any order, the markup is the one
    before the run, or an output that was already awaited before the run, or
    the renderer's output for one of the texts typed in the run; and so is
    every output still awaited. *)
Theorem markup_is_a_whole_render acts st :
  let st' := editor_run marked acts st in
  let rendered h :=
    h ∈ EditorView.awaiting st ∨ ∃ text, text ∈ typed_texts acts ∧ h = marked text in
  (EditorView.markedHtml st' = EditorView.markedHtml st
   ∨ rendered (EditorView.markedHtml st'))
  ∧ Forall rendered (EditorView.awaiting st').
Proof.
  induction acts as [|a acts IH] using rev_ind.
  - simpl. split; [by left|]. apply Forall_forall. intros h Hh. by left.
  - cbv zeta in *. unfold editor_run in *. rewrite foldl_snoc, typed_texts_app.
    set (st' := foldl (editor_step marked) st acts) in *.
    destruct IH as [IHm IHa].
    assert (∀ h, (h ∈ EditorView.awaiting st
                  ∨ ∃ text, text ∈ typed_texts acts ∧ h = marked text)
                 → h ∈ EditorView.awaiting st
                   ∨ ∃ text, text ∈ typed_texts acts ++ typed_texts [a]
                             ∧ h = marked text) as Hmono.
    { intros h [Hh|(t & Ht & ->)]; [by left|].
      right. exists t. split; [|done]. apply elem_of_app. by left. }
    destruct a as [text|k]; simpl editor_step.
    + split.
      * simpl. destruct IHm as [Hm|Hm]; [by left|]. right. by apply Hmono.
      * simpl. apply Forall_app. split.
        -- eapply Forall_impl; [exact IHa|]. exact Hmono.
        -- apply Forall_singleton. right. exists text. split; [|done].
           apply elem_of_app. right. simpl. apply list_elem_of_here.
    + unfold EditorView.resume. destruct (EditorView.awaiting st' !! k) as [h|] eqn:Hk.
      * simpl. split.
        -- right. apply Hmono.
           apply list_elem_of_lookup_2 in Hk.
           by apply (proj1 (Forall_forall _ _) IHa).
        -- apply Forall_delete. eapply Forall_impl; [exact IHa|]. exact Hmono.
      * split.
        -- destruct IHm as [Hm|Hm]; [by left|]. right. by apply Hmono.
        -- eapply Forall_impl; [exact IHa|]. exact Hmono.
Qed.

End EditorRuns.

(** ** The further properties on concrete pages *)

Section MoreConcretePages.

Import Examples.

Local Abbreviation host := always_notifies.

(** A pass from A leaves A as it was. *)
Lemma pass_frame_witness :
  dom (scrollHandler host no_options 1 page) 1 = dom page 1.
Proof.
  destruct (pass_frame host no_options 1 page) as (H & _).
  apply H. by left.
Defined.

(** A stands at the end of its range of 50; the pass sends B to the end of
    its range of 200. *)
Lemma proportional_pass_preserves_ends_witness :
  (scrollTop (dom (scrollHandler host no_options 1 page) 2) == 300 - 100)%Q.
Proof.
  destruct (proportional_pass_preserves_ends host no_options 1 page 2 Vertical)
    as [_ H].
  - reflexivity.
  - reflexivity.
  - repeat constructor.
  - lia.
  - reflexivity.
  - reflexivity.
  - apply H; reflexivity.
Defined.

Lemma repeated_pass_idempotent_witness :
  dom (scrollHandler host no_options 1
         (release_guard (scrollHandler host no_options 1 page))) 2
  = dom (scrollHandler host no_options 1 page) 2.
Proof.
  destruct (repeated_pass_idempotent host no_options 1 page) as [H _].
  - reflexivity.
  - apply H.
Defined.

(** Element 2 gets its ref after the effect ran: its scroll event is not
    seen by the hook. *)
Lemma late_handle_never_drives_witness :
  dispatch host no_options 2
           (run host no_options LatePage.late_scroll (attach LatePage.page))
  = run host no_options LatePage.late_scroll (attach LatePage.page).
Proof.
  destruct (late_handle_never_drives host no_options LatePage.page
              (attach LatePage.page) cleanup LatePage.late_scroll 2) as [_ H].
  - reflexivity.
  - reflexivity.
  - intros H. apply list_elem_of_In in H. simpl in H.
    destruct H as [H|[H|[]]]; discriminate H.
  - exact H.
Defined.

(** On the same page the late element is moved when element 1 scrolls, and
    moves nothing when it is scrolled itself. *)
Example late_handle_is_driven :
  map w_target
      (writes (run host no_options
                   [SetCurrent 1 (Some 2%nat); UserScroll 1 Vertical 10; Tick]
                   (attach LatePage.page)))
  = [2%nat; 2%nat]
  ∧ writes (run host no_options LatePage.late_scroll (attach LatePage.page)) = [].
Proof. split; vm_compute; reflexivity. Qed.

Lemma guard_released_eventually_witness :
  ∃ n, tasks (run host no_options (replicate n Tick)
                  (run host no_options [UserScroll 1 Vertical 10; Tick] (attach page)))
       = []
       ∧ isSyncing (run host no_options (replicate n Tick)
                        (run host no_options [UserScroll 1 Vertical 10; Tick]
                             (attach page)))
         = false.
Proof.
  apply (guard_released_eventually host no_options).
  vm_compute. reflexivity.
Defined.

(** The textarea is element 1 and the preview element 2: the user brings the
    textarea to 25 of 50, the preview is sent to half of its range of 200. *)
Lemma editor_scroll_drives_other_pane_witness :
  let st := run host EditorView.sync_options [UserScroll 1 Vertical 25; Tick]
                (useEffect_body page).1 in
  scrollTop (dom st 1) = 25%Q
  ∧ (scrollTop (dom st 2) == 100)%Q.
Proof.
  destruct (editor_scroll_drives_other_pane host page
              (λ s, match s with
                    | EditorView.Textarea => 1%nat
                    | EditorView.PreviewDiv => 2%nat
                    end)
              EditorView.Textarea EditorView.PreviewDiv Vertical 25)
    as (H1 & H2 & _).
  - reflexivity.
  - reflexivity.
  - reflexivity.
  - reflexivity.
  - simpl. lia.
  - reflexivity.
  - split; [exact H1|]. simpl in H2. simpl. rewrite H2. vm_compute. reflexivity.
Defined.

(** B stands at 30 horizontally; A cannot scroll horizontally; a pass from
    A sends B back to 0. *)
Lemma flat_source_resets_targets_witness :
  (scrollLeft (dom (scrollHandler host no_options 1
                      (step host no_options page (UserScroll 2 Horizontal 30))) 2)
   == 0)%Q.
Proof.
  apply (flat_source_resets_targets host no_options 1
           (step host no_options page (UserScroll 2 Horizontal 30)) 2 Horizontal).
  - reflexivity.
  - reflexivity.
  - repeat constructor.
  - lia.
  - reflexivity.
  - reflexivity.
  - vm_compute. discriminate.
Defined.

Lemma released_session_is_inert_witness :
  writes (run host no_options [UserScroll 2 Vertical 5; Tick; Tick; Tick; Tick]
              (cleanup (run host no_options [UserScroll 1 Vertical 10; Tick]
                            (attach page))))
  = writes (run host no_options [UserScroll 1 Vertical 10; Tick] (attach page)).
Proof.
  destruct (released_session_is_inert host no_options page (attach page) cleanup
              [UserScroll 1 Vertical 10; Tick]
              [UserScroll 2 Vertical 5; Tick; Tick; Tick; Tick]) as [H _].
  - reflexivity.
  - reflexivity.
  - reflexivity.
  - exact H.
Defined.

End MoreConcretePages.
